(** * graff: directed graphs, DFS topological sort, Coffman-Graham layering

    A shallow embedding of the Go package [graff] (DFS sorter, the three
    Coffman-Graham layering loops and the event-graph facade) together with
    the properties stated for it.

    Conventions.
    - A Go [int] is a [Z]; slice lengths stay far below 2^63, so no
      wrap-around is modelled.
    - A Go [map[Node]T] is a [gmap Node T]; the two-value lookup
      [v, ok := m[k]] is [m !! k].
    - A Go slice is a [list]; an index outside the slice panics, which is
      the outcome [Panic].
    - [visit] is recursive on the graph, not on a datum; the embedding
      carries a recursion budget, and [OutOfFuel] is the outcome of a
      budget that was too small. *)

From stdpp Require Import base decidable option list relations gmap fin_maps.
From Stdlib Require Import ZArith Lia.

Local Open Scope Z_scope.

(** ** Errors and outcomes *)

(** [ErrCyclicGraph] and [ErrDependencyOrder] of the package. *)
Inductive error : Type :=
  | ErrCyclicGraph
  | ErrDependencyOrder.

Inductive outcome (A : Type) : Type :=
  | Ok (a : A)
  | Err (e : error)
  | Panic
  | OutOfFuel.

Arguments Ok {A} a.
Arguments Err {A} e.
Arguments Panic {A}.
Arguments OutOfFuel {A}.

(** [for _, x := range xs { if err := body(x); err != nil { return err } }]
    over a state that the body updates. *)
Fixpoint for_each {A S : Type} (body : A → S → outcome S) (xs : list A) (s : S)
  : outcome S :=
  match xs with
  | [] => Ok s
  | x :: xs' =>
      match body x s with
      | Ok s' => for_each body xs' s'
      | Err e => Err e
      | Panic => Panic
      | OutOfFuel => OutOfFuel
      end
  end.

(** ** The directed graph *)

Module DirectedGraph.
Section graph.
Context {Node : Type} `{Countable Node}.

(** Modelled from the spec: the type [DirectedGraph] with its node set
    [graph] and its edge index [directedEdgeList]; the file of the
    package that declares them is not among the source files.  Section 2:
    "Graph: an unordered set of nodes", "EdgeIndex: a bidirectional
    adjacency index over ordered pairs of nodes (outgoing and incoming
    lookup)".  The lists fix the order in which [Nodes], [OutgoingEdges]
    and [IncomingEdges] enumerate; the spec leaves that order open, and
    the theorems below hold for every graph value, so for every order. *)
Record t : Type := mk {
  nodes : list Node;
  outgoing : gmap Node (list Node);
  incoming : gmap Node (list Node)
}.

(** Modelled from the spec: [NewDirectedGraph], the graph without nodes
    and edges. *)
Definition NewDirectedGraph : t :=
  {| nodes := []; outgoing := ∅; incoming := ∅ |}.

(** Modelled from the spec: [Nodes], "Nodes() → sequence of Node
    (unordered)". *)
Definition Nodes (g : t) : list Node := nodes g.

(** Modelled from the spec: [NodeCount], "NodeCount() → int". *)
Definition NodeCount (g : t) : Z := Z.of_nat (length (nodes g)).

(** Modelled from the spec: [OutgoingEdges], "OutgoingEdges(n) → set of
    Node [...] empty set if n has no such edges". *)
Definition OutgoingEdges (g : t) (n : Node) : list Node :=
  default [] (outgoing g !! n).

(** Modelled from the spec: [IncomingEdges], "IncomingEdges(n) → set of
    Node [...] empty set if n has no such edges". *)
Definition IncomingEdges (g : t) (n : Node) : list Node :=
  default [] (incoming g !! n).

(** Modelled from the spec: [EdgeExists], "the sole source of truth for
    relation membership". *)
Definition EdgeExists (g : t) (u v : Node) : bool :=
  bool_decide (v ∈ OutgoingEdges g u).

(** Modelled from the spec: node membership of the [graph] component. *)
Definition NodeExists (g : t) (n : Node) : bool :=
  bool_decide (n ∈ nodes g).

(** Modelled from the spec: the insertion of a node into the node set,
    "no duplicate nodes". *)
Definition AddNode (g : t) (n : Node) : t :=
  if NodeExists g n then g
  else {| nodes := nodes g ++ [n];
          outgoing := outgoing g;
          incoming := incoming g |}.

(** Modelled from the spec: [AddEdge], "AddEdge(u, v): inserts nodes u,
    v if absent; adds directed edge u→v; idempotent." *)
Definition AddEdge (g : t) (u v : Node) : t :=
  let g1 := AddNode (AddNode g u) v in
  if EdgeExists g1 u v then g1
  else {| nodes := nodes g1;
          outgoing := <[u := OutgoingEdges g1 u ++ [v]]> (outgoing g1);
          incoming := <[v := IncomingEdges g1 v ++ [u]]> (incoming g1) |}.

(** Modelled from the spec: [RemoveEdge], "RemoveEdge(u, v): removes
    the edge if present; no-op and no error if absent; does not remove
    the nodes themselves." *)
Definition RemoveEdge (g : t) (u v : Node) : t :=
  if EdgeExists g u v
  then {| nodes := nodes g;
          outgoing := <[u := filter (λ x, x ≠ v) (OutgoingEdges g u)]> (outgoing g);
          incoming := <[v := filter (λ x, x ≠ u) (IncomingEdges g v)]> (incoming g) |}
  else g.

(** Modelled from the spec: [Copy], "Copy() → DirectedGraph: deep
    structural clone".  Values are immutable here, so the clone is the
    value. *)
Definition Copy (g : t) : t := g.

End graph.
Arguments t Node {_ _}.
End DirectedGraph.

(** ** DFSSorter *)

Module DFSSorter.
Section sorter.
Context {Node : Type} `{Countable Node}.

(** The [graph] field is the argument [g] of each function below. *)
Record t : Type := mk {
  sorted : list Node;
  visiting : gmap Node bool;
  discovered : gmap Node bool
}.

(** [init]: three empty containers; the capacities that [init] takes
    from [NodeCount] do not show in the values. *)
Definition init : t :=
  {| sorted := []; visiting := ∅; discovered := ∅ |}.

(** [if b, ok := m[node]; ok && b] *)
Definition marked (m : gmap Node bool) (node : Node) : bool :=
  match m !! node with
  | Some b => b
  | None => false
  end.

Fixpoint visit (g : DirectedGraph.t Node) (fuel : nat) (node : Node) (s : t)
  : outcome t :=
  match fuel with
  | O => OutOfFuel
  | S fuel' =>
      if marked (discovered s) node then Ok s
      else if marked (visiting s) node then Err ErrCyclicGraph
      else
        let s1 := {| sorted := sorted s;
                     visiting := <[node := true]> (visiting s);
                     discovered := discovered s |} in
        match for_each (visit g fuel') (DirectedGraph.OutgoingEdges g node) s1 with
        | Ok s2 =>
            Ok {| sorted := sorted s2 ++ [node];
                  visiting := delete node (visiting s2);
                  discovered := <[node := true]> (discovered s2) |}
        | Err e => Err e
        | Panic => Panic
        | OutOfFuel => OutOfFuel
        end
  end.

(** The closing loop of [Sort]: swap [sorted[i]] and [sorted[j]] while
    [i < j], with [i] going up and [j] going down.  [n] bounds the number
    of iterations. *)
Fixpoint reverse_loop (n : nat) (i j : Z) (l : list Node) : outcome (list Node) :=
  if i <? j then
    match n with
    | O => OutOfFuel
    | S n' =>
        match l !! Z.to_nat i, l !! Z.to_nat j with
        | Some x, Some y =>
            reverse_loop n' (i + 1) (j - 1)
              (<[Z.to_nat j := x]> (<[Z.to_nat i := y]> l))
        | _, _ => Panic
        end
    end
  else Ok l.

(** A node that is not yet discovered starts a recursion that is at most
    as deep as there are nodes; the budget is one more. *)
Definition Sort (g : DirectedGraph.t Node) : outcome (list Node) :=
  match for_each (visit g (S (length (DirectedGraph.Nodes g))))
                 (DirectedGraph.Nodes g) init with
  | Ok s =>
      reverse_loop (length (sorted s)) 0 (Z.of_nat (length (sorted s)) - 1)
                   (sorted s)
  | Err e => Err e
  | Panic => Panic
  | OutOfFuel => OutOfFuel
  end.

End sorter.
Arguments t Node {_ _}.
End DFSSorter.

(** [DirectedGraph.DFSSort]: a new sorter, then [Sort]. *)
Definition DFSSort {Node : Type} `{Countable Node} (g : DirectedGraph.t Node)
  : outcome (list Node) :=
  DFSSorter.Sort g.

(** ** Transitive reduction *)

Section reduction.
Context {Node : Type} `{Countable Node}.

(** Modelled from the spec: the test "v reachable from w" of
    [RemoveTransitives], as a search of bounded depth.
    [reaches g fuel w v]: [v] is found from [w] along at most
    [fuel - 1] outgoing edges. *)
Fixpoint reaches (g : DirectedGraph.t Node) (fuel : nat) (w v : Node) : bool :=
  match fuel with
  | O => false
  | S fuel' =>
      bool_decide (w = v)
      || existsb (λ x, reaches g fuel' x v) (DirectedGraph.OutgoingEdges g w)
  end.

(** Modelled from the spec: "v reachable from w".  The reduction only
    searches a graph that is acyclic; there a path visits no node twice,
    so it has fewer edges than the graph has nodes. *)
Definition reachable (g : DirectedGraph.t Node) (w v : Node) : bool :=
  reaches g (length (DirectedGraph.Nodes g)) w v.

(** Modelled from the spec: the test of [RemoveTransitives] on one
    edge, "no other neighbor w of u (w ≠ v) has v reachable from w",
    negated: some other neighbour of [u] reaches [v]. *)
Definition implied (g : DirectedGraph.t Node) (u v : Node) : bool :=
  existsb (λ w, negb (bool_decide (w = v)) && reachable g w v)
          (DirectedGraph.OutgoingEdges g u).

(** Modelled from the spec: "when considering node u's outgoing edge to
    v, drop it if v is already reachable from u through some other
    retained edge". *)
Definition reduce_edge (u : Node) (g : DirectedGraph.t Node) (v : Node)
  : DirectedGraph.t Node :=
  if implied g u v then DirectedGraph.RemoveEdge g u v else g.

(** Modelled from the spec: the step of [RemoveTransitives] for one
    node, over the edges that leave it when the step begins. *)
Definition reduce_node (g : DirectedGraph.t Node) (u : Node)
  : DirectedGraph.t Node :=
  foldl (reduce_edge u) g (DirectedGraph.OutgoingEdges g u).

(** Modelled from the spec: [DirectedGraph.RemoveTransitives], which
    the three layering functions call; the file of the package that
    defines it is not among the source files.  Section 4.1: "compute a
    topological order (via DFS sort on the graph being reduced); process
    nodes in that order [...] when considering node u's outgoing edge to
    v, drop it if v is already reachable from u through some other
    retained edge [...] equivalently, keep only edges (u,v) where no
    other neighbor w of u (w ≠ v) has v reachable from w. [...] behavior
    on a cyclic graph is to fail (surfaces the DFS cycle error)".  The
    graph is changed in place, so each edge is judged against the edges
    retained so far; a failing sort leaves the graph as it was.  The
    callers use the call as a statement: they keep the graph and drop
    the status. *)
Definition RemoveTransitives (g : DirectedGraph.t Node)
  : DirectedGraph.t Node * outcome unit :=
  match DFSSort g with
  | Ok order => (foldl reduce_node g order, Ok ())
  | Err e => (g, Err e)
  | Panic => (g, Panic)
  | OutOfFuel => (g, OutOfFuel)
  end.

End reduction.

(** ** Coffman-Graham layering *)

(** The three layering loops repeat one block of statements verbatim:
    the scan of the incoming edges, the search for a layer with room, and
    the placement.  The block is embedded once. *)
Section placement.
Context {Node : Type} `{Countable Node}.

(** [xs[i]] for a Go [int] index. *)
Definition index {A : Type} (xs : list A) (i : Z) : option A :=
  if i <? 0 then None else xs !! Z.to_nat i.

Definition len {A : Type} (xs : list A) : Z := Z.of_nat (length xs).

(** [for _, dependant := range reduced.IncomingEdges(node)] *)
Fixpoint dependant_loop (levels : gmap Node Z) (dependants : list Node)
    (dependantLevel : Z) : outcome Z :=
  match dependants with
  | [] => Ok dependantLevel
  | dependant :: rest =>
      match levels !! dependant with
      | None => Err ErrDependencyOrder
      | Some level =>
          dependant_loop levels rest
            (if dependantLevel <? level then level else dependantLevel)
      end
  end.

(** [for i := dependantLevel + 1; i < len(layers); i++]; the result is
    the value of [level] after the loop, [-1] when no layer had room.
    The loop runs at most [len(layers)] times: an [i] below zero panics
    at once. *)
Fixpoint unfilled_loop (layers : list (list Node)) (width : Z) (fuel : nat)
    (i : Z) : outcome Z :=
  if i <? len layers then
    match fuel with
    | O => OutOfFuel
    | S fuel' =>
        match index layers i with
        | None => Panic
        | Some layer =>
            if len layer <? width then Ok i
            else unfilled_loop layers width fuel' (i + 1)
        end
    end
  else Ok (-1).

(** The statements of one iteration from [dependantLevel := -1] to
    [levels[node] = level].  Nothing is written before the last two
    statements, so a failing iteration leaves [layers] and [levels] as
    they were.  The third component is the local [level]. *)
Definition assign (reduced : DirectedGraph.t Node) (width : Z) (node : Node)
    (layers : list (list Node)) (levels : gmap Node Z)
  : outcome (list (list Node) * gmap Node Z * Z) :=
  match dependant_loop levels (DirectedGraph.IncomingEdges reduced node) (-1) with
  | Ok dependantLevel =>
      match
        (if dependantLevel <? len layers - 1
         then unfilled_loop layers width (S (length layers)) (dependantLevel + 1)
         else Ok (-1))
      with
      | Ok level =>
          let layers1 := if level =? -1 then layers ++ [[]] else layers in
          let level1 := if level =? -1 then len layers1 - 1 else level in
          match index layers1 level1 with
          | Some layer =>
              Ok (<[Z.to_nat level1 := layer ++ [node]]> layers1,
                  <[node := level1]> levels,
                  level1)
          | None => Panic
          end
      | Err e => Err e
      | Panic => Panic
      | OutOfFuel => OutOfFuel
      end
  | Err e => Err e
  | Panic => Panic
  | OutOfFuel => OutOfFuel
  end.

End placement.

Module CoffmanGrahamSorter.
Section sorter.
Context {Node : Type} `{Countable Node}.

(** The [graph] field is a pointer; the graph it points to at the time
    of a call is the argument [g] of that call. *)
Record t : Type := mk {
  width : Z;
  layers : list (list Node);
  levels : gmap Node Z;
  level : Z
}.

Definition NewCoffmanGrahamSorter (width : Z) : t :=
  {| width := width; layers := []; levels := ∅; level := 0 |}.

(** The loop of [Sort] over the local variables [layers] and [levels].
    [levels] is the sorter's own map, so what the loop wrote is there
    also when the loop stops with an error. *)
Fixpoint Sort_loop (reduced : DirectedGraph.t Node) (width : Z)
    (nodes : list Node) (layers : list (list Node)) (levels : gmap Node Z)
  : outcome unit * (list (list Node) * gmap Node Z) :=
  match nodes with
  | [] => (Ok (), (layers, levels))
  | node :: rest =>
      match levels !! node with
      | Some _ => Sort_loop reduced width rest layers levels
      | None =>
          match assign reduced width node layers levels with
          | Ok (layers', levels', _) =>
              Sort_loop reduced width rest layers' levels'
          | Err e => (Err e, (layers, levels))
          | Panic => (Panic, (layers, levels))
          | OutOfFuel => (OutOfFuel, (layers, levels))
          end
      end
  end.

(** [Sort].  The [level] that the loop body declares with [level := -1]
    is a variable of the body; [s.level = level] after the loop reads the
    variable declared before the loop, which still holds [s.level].
    On an error from the loop the field [layers] is not assigned; the
    writes through the shared backing array of the slice are not
    modelled on that path.  The call of [fmt.Println] in the loop writes
    to the standard output only and is left out. *)
Definition Sort (g : DirectedGraph.t Node) (s : t)
  : outcome (list (list Node)) * t :=
  let reduced := (RemoveTransitives (DirectedGraph.Copy g)).1 in
  match DFSSort reduced with
  | Ok nodes =>
      let level0 := level s in
      match Sort_loop reduced (width s) nodes (layers s) (levels s) with
      | (Ok _, (layers', levels')) =>
          (Ok layers',
           {| width := width s; layers := layers'; levels := levels';
              level := level0 |})
      | (Err e, (_, levels')) =>
          (Err e,
           {| width := width s; layers := layers s; levels := levels';
              level := level s |})
      | (Panic, (_, levels')) =>
          (Panic,
           {| width := width s; layers := layers s; levels := levels';
              level := level s |})
      | (OutOfFuel, (_, levels')) =>
          (OutOfFuel,
           {| width := width s; layers := layers s; levels := levels';
              level := level s |})
      end
  | Err e => (Err e, s)
  | Panic => (Panic, s)
  | OutOfFuel => (OutOfFuel, s)
  end.

(** The loop of [OrigSort]: no test for an earlier assignment. *)
Fixpoint OrigSort_loop (reduced : DirectedGraph.t Node) (width : Z)
    (nodes : list Node) (layers : list (list Node)) (levels : gmap Node Z)
  : outcome (list (list Node)) :=
  match nodes with
  | [] => Ok layers
  | node :: rest =>
      match assign reduced width node layers levels with
      | Ok (layers', levels', _) =>
          OrigSort_loop reduced width rest layers' levels'
      | Err e => Err e
      | Panic => Panic
      | OutOfFuel => OutOfFuel
      end
  end.

(** [OrigSort] works on containers of its own and leaves the sorter as
    it is. *)
Definition OrigSort (g : DirectedGraph.t Node) (s : t)
  : outcome (list (list Node)) :=
  let reduced := (RemoveTransitives (DirectedGraph.Copy g)).1 in
  match DFSSort reduced with
  | Ok nodes => OrigSort_loop reduced (width s) nodes [] ∅
  | Err e => Err e
  | Panic => Panic
  | OutOfFuel => OutOfFuel
  end.

End sorter.
Arguments t Node {_ _}.
End CoffmanGrahamSorter.

(** [DirectedGraph.CoffmanGrahamSort]: a new sorter, then [Sort]; the
    sorter is dropped. *)
Definition CoffmanGrahamSort {Node : Type} `{Countable Node}
    (g : DirectedGraph.t Node) (width : Z) : outcome (list (list Node)) :=
  (CoffmanGrahamSorter.Sort g (CoffmanGrahamSorter.NewCoffmanGrahamSorter width)).1.

Module OptimizedCoffmanGrahamSorter.
Section sorter.
Context {Node : Type} `{Countable Node}.

Record t : Type := mk {
  width : Z;
  layers : list (list Node);
  levels : gmap Node Z;
  level : Z
}.

Definition NewOptimizedCoffmanGrahamSorter (width : Z) : t :=
  {| width := width; layers := []; levels := ∅; level := 0 |}.

(** The loop of [EventSort] over [layers], [levels] and [maxLevel]. *)
Fixpoint EventSort_loop (reduced : DirectedGraph.t Node) (width : Z)
    (nodes : list Node) (layers : list (list Node)) (levels : gmap Node Z)
    (maxLevel : Z)
  : outcome unit * (list (list Node) * gmap Node Z * Z) :=
  match nodes with
  | [] => (Ok (), (layers, levels, maxLevel))
  | node :: rest =>
      match levels !! node with
      | Some _ => EventSort_loop reduced width rest layers levels maxLevel
      | None =>
          match assign reduced width node layers levels with
          | Ok (layers', levels', level) =>
              EventSort_loop reduced width rest layers' levels'
                (if (maxLevel =? -1) || (maxLevel <? level)
                 then level else maxLevel)
          | Err e => (Err e, (layers, levels, maxLevel))
          | Panic => (Panic, (layers, levels, maxLevel))
          | OutOfFuel => (OutOfFuel, (layers, levels, maxLevel))
          end
      end
  end.

(** [EventSort].  As in [Sort], [levels] is the sorter's own map and
    keeps what the loop wrote when the loop stops with an error. *)
Definition EventSort (g : DirectedGraph.t Node) (s : t)
  : outcome (list (list Node)) * t :=
  let reduced := (RemoveTransitives (DirectedGraph.Copy g)).1 in
  match DFSSort reduced with
  | Ok nodes =>
      match EventSort_loop reduced (width s) nodes (layers s) (levels s) (-1) with
      | (Ok _, (layers', levels', maxLevel)) =>
          (Ok layers',
           {| width := width s; layers := layers'; levels := levels';
              level := maxLevel |})
      | (Err e, (_, levels', _)) =>
          (Err e,
           {| width := width s; layers := layers s; levels := levels';
              level := level s |})
      | (Panic, (_, levels', _)) =>
          (Panic,
           {| width := width s; layers := layers s; levels := levels';
              level := level s |})
      | (OutOfFuel, (_, levels', _)) =>
          (OutOfFuel,
           {| width := width s; layers := layers s; levels := levels';
              level := level s |})
      end
  | Err e => (Err e, s)
  | Panic => (Panic, s)
  | OutOfFuel => (OutOfFuel, s)
  end.

End sorter.
Arguments t Node {_ _}.
End OptimizedCoffmanGrahamSorter.

(** ** The event graph *)

Module EventGraph.
Section graph.
Context {Node : Type} `{Countable Node}.

(** [EventGraph] embeds a [*DirectedGraph]. *)
Record t : Type := mk { DirectedGraph_of : DirectedGraph.t Node }.

Definition NewEventGraph : t :=
  {| DirectedGraph_of := DirectedGraph.NewDirectedGraph |}.

Definition Copy (g : t) : t :=
  {| DirectedGraph_of := DirectedGraph.Copy (DirectedGraph_of g) |}.

Definition AddEdge (g : t) (from to : Node) : t :=
  {| DirectedGraph_of := DirectedGraph.AddEdge (DirectedGraph_of g) to from |}.

Definition RemoveEdge (g : t) (from to : Node) : t :=
  {| DirectedGraph_of := DirectedGraph.RemoveEdge (DirectedGraph_of g) to from |}.

Definition EdgeExists (g : t) (from to : Node) : bool :=
  DirectedGraph.EdgeExists (DirectedGraph_of g) to from.

End graph.
Arguments t Node {_ _}.
End EventGraph.

(** ** Vocabulary of the properties *)

Section vocabulary.
Context {Node : Type} `{Countable Node}.

(** [edge g u v]: the graph has the edge from [u] to [v]. *)
Definition edge (g : DirectedGraph.t Node) (u v : Node) : Prop :=
  v ∈ DirectedGraph.OutgoingEdges g u.

Global Instance edge_dec g u v : Decision (edge g u v).
Proof. unfold edge. apply _. Defined.

(** The invariant of the data model: no node is listed twice, "every
    node appearing in edges is also a member of the node set", and the
    two directions of the edge index agree. *)
Definition wf (g : DirectedGraph.t Node) : Prop :=
  NoDup (DirectedGraph.nodes g)
  ∧ map_Forall (λ u vs,
      Forall (λ v, u ∈ DirectedGraph.nodes g
                   ∧ v ∈ DirectedGraph.nodes g
                   ∧ u ∈ DirectedGraph.IncomingEdges g v) vs)
      (DirectedGraph.outgoing g)
  ∧ map_Forall (λ v us,
      Forall (λ u, v ∈ DirectedGraph.OutgoingEdges g u) us)
      (DirectedGraph.incoming g).

Global Instance wf_dec g : Decision (wf g).
Proof. unfold wf. apply _. Defined.

(** No node reaches itself along one or more edges. *)
Definition acyclic (g : DirectedGraph.t Node) : Prop :=
  ∀ x, ¬ tc (edge g) x x.

(** [ranked rank g]: [rank] grows along every edge; a decidable
    certificate of acyclicity. *)
Definition ranked (rank : Node → nat) (g : DirectedGraph.t Node) : Prop :=
  map_Forall (λ u vs, Forall (λ v, (rank u < rank v)%nat) vs)
             (DirectedGraph.outgoing g).

Global Instance ranked_dec rank g : Decision (ranked rank g).
Proof. unfold ranked. apply _. Defined.

(** [before l u v]: [u] occurs in [l] at a smaller index than [v]. *)
Definition before (l : list Node) (u v : Node) : Prop :=
  ∃ i j : nat, l !! i = Some u ∧ l !! j = Some v ∧ (i < j)%nat.

(** [in_layer layers n i]: [n] is a member of the layer with index [i]. *)
Definition in_layer (layers : list (list Node)) (n : Node) (i : nat) : Prop :=
  ∃ layer, layers !! i = Some layer ∧ n ∈ layer.

(** The invariant of the depth-first search: [sorted] lists the
    discovered nodes once each, and every successor of a listed node is
    listed at a smaller index. *)
Definition dfs_inv (g : DirectedGraph.t Node) (s : DFSSorter.t Node) : Prop :=
  NoDup (DFSSorter.sorted s)
  ∧ (∀ x, DFSSorter.marked (DFSSorter.discovered s) x = true
          ↔ x ∈ DFSSorter.sorted s)
  ∧ (∀ (i : nat) x y, DFSSorter.sorted s !! i = Some x → edge g x y →
       ∃ j : nat, (j < i)%nat ∧ DFSSorter.sorted s !! j = Some y).

(** What a returning visit does to the sorter: the invariant holds
    again, and [sorted] has grown by nodes that carried no temporary
    mark. *)
Definition dfs_step (g : DirectedGraph.t Node) (s s' : DFSSorter.t Node) : Prop :=
  dfs_inv g s'
  ∧ ∃ l, DFSSorter.sorted s' = DFSSorter.sorted s ++ l
         ∧ ∀ x, x ∈ l → DFSSorter.marked (DFSSorter.visiting s) x = false.

(** Two mark tables that mark the same nodes. *)
Definition same_marks (m1 m2 : gmap Node bool) : Prop :=
  ∀ x, DFSSorter.marked m1 x = DFSSorter.marked m2 x.

(** The number of nodes without a temporary mark. *)
Definition unvisited (g : DirectedGraph.t Node) (m : gmap Node bool) : nat :=
  length (filter (λ x, DFSSorter.marked m x = false) (DirectedGraph.nodes g)).

(** [subgraph g' g]: the same nodes and some of the edges. *)
Definition subgraph (g' g : DirectedGraph.t Node) : Prop :=
  DirectedGraph.nodes g' = DirectedGraph.nodes g
  ∧ ∀ u v, edge g' u v → edge g u v.

(** What every step of the reduction keeps of the graph [g0] it began
    with. *)
Definition reduces (g0 g : DirectedGraph.t Node) : Prop :=
  subgraph g g0
  ∧ wf g
  ∧ ∀ a b, rtc (edge g0) a b → rtc (edge g) a b.

(** No edge that leaves [u] is implied by another one. *)
Definition settled (g : DirectedGraph.t Node) (u : Node) : Prop :=
  ∀ v, edge g u v → implied g u v = false.

(** [layers] and [levels] tell the same story, and no layer is wider
    than [width]. *)
Definition layering (width : Z) (layers : list (list Node))
    (levels : gmap Node Z) : Prop :=
  (∀ n z, levels !! n = Some z → 0 ≤ z ∧ in_layer layers n (Z.to_nat z))
  ∧ (∀ n (i : nat), in_layer layers n i → levels !! n = Some (Z.of_nat i))
  ∧ Forall (λ layer, len layer ≤ width) layers.

(** Every node with a level has its predecessors on lower levels. *)
Definition respects (reduced : DirectedGraph.t Node) (levels : gmap Node Z)
  : Prop :=
  ∀ u v zv, edge reduced u v → levels !! v = Some zv →
    ∃ zu, levels !! u = Some zu ∧ zu < zv.

(** What was assigned stays where it is. *)
Definition extends (layers layers' : list (list Node))
    (levels levels' : gmap Node Z) : Prop :=
  (∀ n z, levels !! n = Some z → levels' !! n = Some z)
  ∧ (∀ (i : nat) layer, layers !! i = Some layer →
       ∃ more, layers' !! i = Some (layer ++ more)).

(** Every dependant of a listed node has a level already or stands
    earlier in the list. *)
Definition dependants_first (reduced : DirectedGraph.t Node)
    (nodes : list Node) (levels : gmap Node Z) : Prop :=
  ∀ (i : nat) n p, nodes !! i = Some n →
    p ∈ DirectedGraph.IncomingEdges reduced n →
    is_Some (levels !! p) ∨ ∃ j : nat, (j < i)%nat ∧ nodes !! j = Some p.

(** The result of [Sort_loop] as the result of a loop that returns. *)
Definition returned (r : outcome unit * (list (list Node) * gmap Node Z))
  : outcome (list (list Node)) :=
  match r.1 with
  | Ok _ => Ok r.2.1
  | Err e => Err e
  | Panic => Panic
  | OutOfFuel => OutOfFuel
  end.

(** Every node above level 0 has a dependant on the level just below. *)
Definition tight (reduced : DirectedGraph.t Node) (levels : gmap Node Z)
  : Prop :=
  ∀ v z, levels !! v = Some z →
    z = 0 ∨ ∃ u, u ∈ DirectedGraph.IncomingEdges reduced v
                 ∧ levels !! u = Some (z - 1).

End vocabulary.

(** ** Three small graphs *)

(** Nodes A, B, C, D as 1, 2, 3, 4; edges A→B, B→C and the implied A→C. *)
Definition scenario : DirectedGraph.t nat :=
  DirectedGraph.AddNode
    (DirectedGraph.AddEdge
       (DirectedGraph.AddEdge
          (DirectedGraph.AddEdge DirectedGraph.NewDirectedGraph 1%nat 2%nat)
          2%nat 3%nat) 1%nat 3%nat) 4%nat.

(** Edges A→B and B→A. *)
Definition two_cycle : DirectedGraph.t nat :=
  DirectedGraph.AddEdge
    (DirectedGraph.AddEdge DirectedGraph.NewDirectedGraph 1%nat 2%nat)
    2%nat 1%nat.

(** The single edge A→B. *)
Definition chain : DirectedGraph.t nat :=
  DirectedGraph.AddEdge DirectedGraph.NewDirectedGraph 1%nat 2%nat.

(** [chain] after two more edges, B→C and D→C. *)
Definition grown : DirectedGraph.t nat :=
  DirectedGraph.AddEdge (DirectedGraph.AddEdge chain 2%nat 3%nat) 4%nat 3%nat.


(** A graph value whose edge index is one-sided: B is recorded as incoming
    to A, but A is not recorded as outgoing from B. *)
Definition one_sided : DirectedGraph.t nat :=
  {| DirectedGraph.nodes := [2; 1]%nat;
     DirectedGraph.outgoing := ∅;
     DirectedGraph.incoming := {[ 1%nat := [2%nat] ]} |}.

(** Nodes A, B, C without an edge. *)
Definition loose : DirectedGraph.t nat :=
  DirectedGraph.AddNode
    (DirectedGraph.AddNode
       (DirectedGraph.AddNode DirectedGraph.NewDirectedGraph 1%nat) 2%nat) 3%nat.

(** The events A, B, C in a row: A before B, B before C. *)
Definition events : EventGraph.t nat :=
  EventGraph.AddEdge
    (EventGraph.AddEdge EventGraph.NewEventGraph 1%nat 2%nat) 2%nat 3%nat.

(** * Proofs *)

Ltac case_ltb :=
  match goal with
  | |- context [?a <? ?b] => destruct (Z.ltb_spec a b)
  end.
Ltac by_compute := apply (bool_decide_unpack _); vm_compute; exact I.

(** ** Loops with an early exit *)

Lemma for_each_elim {A S : Type} (body : A → S → outcome S)
    (P : S → Prop) (R : outcome S → Prop) (xs : list A) (s : S) :
  (∀ x s, x ∈ xs → P s →
     match body x s with Ok s' => P s' | o => R o end) →
  P s →
  match for_each body xs s with Ok s' => P s' | o => R o end.
Proof.
  revert s. induction xs as [|x xs IH]; intros s Hbody HP; simpl; [done|].
  pose proof (Hbody x s (list_elem_of_here _ _) HP) as Hx.
  destruct (body x s) as [s1| | |] eqn:E; try done.
  apply IH; [|done].
  intros y t Hy. apply Hbody. by apply list_elem_of_further.
Qed.

Lemma for_each_Ok_inv {A S : Type} (body : A → S → outcome S)
    (P : S → Prop) (xs : list A) (s s' : S) :
  (∀ x s s', x ∈ xs → P s → body x s = Ok s' → P s') →
  P s → for_each body xs s = Ok s' → P s'.
Proof.
  intros Hbody HP Hrun.
  pose proof (for_each_elim body P (λ _, True) xs s) as Hel.
  rewrite Hrun in Hel. apply Hel; [|done].
  intros x t Hx Ht. destruct (body x t) eqn:E; eauto.
Qed.

(** ** Well-formed graphs *)

Section graph_facts.
Context {Node : Type} `{Countable Node}.
Implicit Types (g : DirectedGraph.t Node) (u v x y : Node).

Lemma elem_of_OutgoingEdges g u v :
  v ∈ DirectedGraph.OutgoingEdges g u
  ↔ ∃ vs, DirectedGraph.outgoing g !! u = Some vs ∧ v ∈ vs.
Proof.
  unfold DirectedGraph.OutgoingEdges.
  destruct (DirectedGraph.outgoing g !! u) as [vs|]; simpl; split.
  - eauto.
  - by intros (? & [= <-] & ?).
  - by intros ?%elem_of_nil.
  - by intros (? & [=] & ?).
Qed.

Lemma elem_of_IncomingEdges g u v :
  u ∈ DirectedGraph.IncomingEdges g v
  ↔ ∃ us, DirectedGraph.incoming g !! v = Some us ∧ u ∈ us.
Proof.
  unfold DirectedGraph.IncomingEdges.
  destruct (DirectedGraph.incoming g !! v) as [us|]; simpl; split.
  - eauto.
  - by intros (? & [= <-] & ?).
  - by intros ?%elem_of_nil.
  - by intros (? & [=] & ?).
Qed.

Lemma wf_edge g u v :
  wf g → edge g u v →
  u ∈ DirectedGraph.nodes g ∧ v ∈ DirectedGraph.nodes g
  ∧ u ∈ DirectedGraph.IncomingEdges g v.
Proof.
  intros (_ & Hout & _) (vs & Hvs & Hv)%elem_of_OutgoingEdges.
  specialize (Hout _ _ Hvs). rewrite Forall_forall in Hout. by apply Hout.
Qed.

Lemma wf_incoming g u v :
  wf g → u ∈ DirectedGraph.IncomingEdges g v ↔ edge g u v.
Proof.
  intros Hwf. split.
  - destruct Hwf as (_ & _ & Hin).
    intros (us & Hus & Hu)%elem_of_IncomingEdges.
    specialize (Hin _ _ Hus). rewrite Forall_forall in Hin. by apply Hin.
  - intros Hedge. by apply wf_edge.
Qed.

Lemma wf_NoDup g : wf g → NoDup (DirectedGraph.nodes g).
Proof. by intros (? & _). Qed.

Lemma ranked_acyclic rank g : ranked rank g → acyclic g.
Proof.
  intros Hrank.
  assert (∀ x y, tc (edge g) x y → (rank x < rank y)%nat) as Hlt.
  { assert (∀ x y, edge g x y → (rank x < rank y)%nat) as Hedge.
    { intros x y (vs & Hvs & Hy)%elem_of_OutgoingEdges.
      specialize (Hrank _ _ Hvs). rewrite Forall_forall in Hrank.
      by apply Hrank. }
    induction 1 as [x y Hxy|x y z Hxy _ IH].
    - by apply Hedge.
    - apply Hedge in Hxy. lia. }
  intros x Hx. apply Hlt in Hx. lia.
Qed.

(** A list that puts every edge forward is such a certificate as well. *)
Lemma before_acyclic g l :
  NoDup l → (∀ u v, edge g u v → before l u v) → acyclic g.
Proof.
  intros Hnd Hbefore.
  assert (∀ x y, tc (edge g) x y → before l x y) as Htc.
  { induction 1 as [x y Hxy|x y z Hxy _ IH]; [by apply Hbefore|].
    destruct (Hbefore _ _ Hxy) as (i & j & Hi & Hj & Hij).
    destruct IH as (j' & k & Hj' & Hk & Hjk).
    assert (j = j') as <- by (by eapply NoDup_lookup).
    exists i, k. repeat split; [done|done|lia]. }
  intros x (i & j & Hi & Hj & Hij)%Htc.
  assert (i = j) by (by eapply NoDup_lookup). lia.
Qed.

End graph_facts.

(** ** The depth-first search *)

Section dfs.
Context {Node : Type} `{Countable Node}.
Implicit Types (g : DirectedGraph.t Node) (s : DFSSorter.t Node).
Implicit Types (m : gmap Node bool) (n x y : Node).

Lemma marked_insert m n x :
  DFSSorter.marked (<[n := true]> m) x
  = if decide (n = x) then true else DFSSorter.marked m x.
Proof.
  unfold DFSSorter.marked. rewrite lookup_insert.
  by destruct (decide (n = x)).
Qed.

Lemma marked_delete m n x :
  DFSSorter.marked (delete n m) x
  = if decide (n = x) then false else DFSSorter.marked m x.
Proof.
  unfold DFSSorter.marked. rewrite lookup_delete.
  by destruct (decide (n = x)).
Qed.

Lemma marked_empty x : DFSSorter.marked (∅ : gmap Node bool) x = false.
Proof. unfold DFSSorter.marked. by rewrite lookup_empty. Qed.

Lemma same_marks_refl m : same_marks m m.
Proof. done. Qed.

Lemma same_marks_trans m1 m2 m3 :
  same_marks m1 m2 → same_marks m2 m3 → same_marks m1 m3.
Proof. intros H12 H23 x. by rewrite H12. Qed.

(** A visit that returns has removed every temporary mark it set. *)
Lemma visit_visiting g fuel n s s' :
  DFSSorter.visit g fuel n s = Ok s' →
  same_marks (DFSSorter.visiting s) (DFSSorter.visiting s').
Proof.
  revert n s s'. induction fuel as [|fuel IH]; intros n s s'; simpl; [done|].
  destruct (DFSSorter.marked (DFSSorter.discovered s) n) eqn:HD.
  { intros [= <-]. apply same_marks_refl. }
  destruct (DFSSorter.marked (DFSSorter.visiting s) n) eqn:HV; [done|].
  destruct (for_each _ _ _) as [s2| | |] eqn:Hloop; try done.
  intros [= <-]; simpl.
  assert (same_marks (<[n:=true]> (DFSSorter.visiting s)) (DFSSorter.visiting s2))
    as Hsame.
  { apply (for_each_Ok_inv _
      (λ t, same_marks (<[n:=true]> (DFSSorter.visiting s)) (DFSSorter.visiting t))
      _ _ _ (λ x t t' _ Ht Hv, same_marks_trans _ _ _ Ht (IH x t t' Hv))
      (same_marks_refl _) Hloop). }
  intros x. rewrite marked_delete, <- Hsame, marked_insert.
  destruct (decide (n = x)); by subst.
Qed.

Lemma for_each_visit_visiting g fuel xs s s' :
  for_each (DFSSorter.visit g fuel) xs s = Ok s' →
  same_marks (DFSSorter.visiting s) (DFSSorter.visiting s').
Proof.
  apply (for_each_Ok_inv _
    (λ t, same_marks (DFSSorter.visiting s) (DFSSorter.visiting t))).
  - intros x t t' _ Ht Hv.
    eapply same_marks_trans; [done|]. by eapply visit_visiting.
  - apply same_marks_refl.
Qed.

Lemma dfs_step_refl g s : dfs_inv g s → dfs_step g s s.
Proof.
  intros Hinv. split; [done|]. exists []. split; [by rewrite app_nil_r|].
  by intros x ?%elem_of_nil.
Qed.

Lemma dfs_step_trans g s1 s2 s3 :
  same_marks (DFSSorter.visiting s1) (DFSSorter.visiting s2) →
  dfs_step g s1 s2 → dfs_step g s2 s3 → dfs_step g s1 s3.
Proof.
  intros Hsame (_ & l1 & E1 & Hl1) (Hinv & l2 & E2 & Hl2).
  split; [done|]. exists (l1 ++ l2). split.
  - by rewrite E2, E1, <- app_assoc.
  - intros x [Hx|Hx]%elem_of_app; [by apply Hl1|].
    rewrite Hsame. by apply Hl2.
Qed.

Lemma dfs_step_discovered g s s' x :
  dfs_inv g s → dfs_step g s s' →
  DFSSorter.marked (DFSSorter.discovered s) x = true →
  DFSSorter.marked (DFSSorter.discovered s') x = true.
Proof.
  intros (_ & HD & _) ((_ & HD' & _) & l & E & _) Hx.
  apply HD'. rewrite E. apply elem_of_app. left. by apply HD.
Qed.

Lemma for_each_visit_step g fuel :
  (∀ n s s', dfs_inv g s → DFSSorter.visit g fuel n s = Ok s' →
     dfs_step g s s' ∧ DFSSorter.marked (DFSSorter.discovered s') n = true) →
  ∀ xs s s', dfs_inv g s → for_each (DFSSorter.visit g fuel) xs s = Ok s' →
    dfs_step g s s'
    ∧ ∀ x, x ∈ xs → DFSSorter.marked (DFSSorter.discovered s') x = true.
Proof.
  intros Hvisit. induction xs as [|x xs IH]; intros s s' Hinv; simpl.
  - intros [= <-]. split; [by apply dfs_step_refl|]. by intros x ?%elem_of_nil.
  - destruct (DFSSorter.visit g fuel x s) as [s1| | |] eqn:Hx; try done.
    intros Hrest.
    destruct (Hvisit _ _ _ Hinv Hx) as [Hstep1 HDx].
    destruct (IH _ _ (proj1 Hstep1) Hrest) as [Hstep2 HDxs].
    split.
    + eapply dfs_step_trans; [by eapply visit_visiting|done|done].
    + intros y [->|Hy]%elem_of_cons; [|by apply HDxs].
      exact (dfs_step_discovered _ _ _ _ (proj1 Hstep1) Hstep2 HDx).
Qed.

(** A returning visit keeps the invariant and leaves its node
    discovered. *)
Lemma visit_step g fuel n s s' :
  dfs_inv g s → DFSSorter.visit g fuel n s = Ok s' →
  dfs_step g s s' ∧ DFSSorter.marked (DFSSorter.discovered s') n = true.
Proof.
  revert n s s'. induction fuel as [|fuel IH]; intros n s s' Hinv; simpl; [done|].
  destruct (DFSSorter.marked (DFSSorter.discovered s) n) eqn:HD.
  { intros [= <-]. split; [by apply dfs_step_refl|done]. }
  destruct (DFSSorter.marked (DFSSorter.visiting s) n) eqn:HV; [done|].
  set (s1 := DFSSorter.mk _ _ _).
  destruct (for_each _ _ s1) as [s2| | |] eqn:Hloop; try done.
  intros [= <-].
  assert (dfs_inv g s1) as Hinv1 by done.
  destruct (for_each_visit_step g fuel IH _ _ _ Hinv1 Hloop)
    as [((Hnd & HD2 & Hord) & l & E & Hl) Hsucc].
  simpl in E, Hl.
  assert (n ∉ DFSSorter.sorted s2) as Hfresh.
  { rewrite E. intros [Hn|Hn]%elem_of_app.
    - apply Hinv in Hn. congruence.
    - apply Hl in Hn. rewrite marked_insert in Hn.
      by destruct (decide (n = n)). }
  split; [split; [split; [|split] |]|]; simpl.
  - apply NoDup_app. split; [done|]. split; [|apply NoDup_singleton].
    intros x Hx ->%list_elem_of_singleton. done.
  - intros x. rewrite marked_insert, elem_of_app, list_elem_of_singleton.
    destruct (decide (n = x)) as [->|Hne]; [by split; [right|]|].
    rewrite HD2. split; [by left|]. by intros [?|?].
  - intros i x y Hi Hxy.
    destruct (decide (i < length (DFSSorter.sorted s2))%nat) as [Hlt|Hge].
    + rewrite lookup_app_l in Hi by done.
      destruct (Hord _ _ _ Hi Hxy) as (j & Hj & Hjy).
      exists j. split; [done|]. rewrite lookup_app_l by lia. done.
    + rewrite lookup_app_r in Hi by lia.
      apply list_lookup_singleton_Some in Hi as [Hi ->].
      assert (y ∈ DFSSorter.sorted s2) as Hy.
      { apply HD2. by apply Hsucc. }
      apply list_elem_of_lookup in Hy as [j Hj].
      exists j. split.
      * apply lookup_lt_Some in Hj. lia.
      * by apply lookup_app_l_Some.
  - exists (l ++ [n]). split; [by rewrite E, <- app_assoc|].
    intros x [Hx|Hx%list_elem_of_singleton]%elem_of_app; [|by subst].
    apply Hl in Hx. rewrite marked_insert in Hx.
    by destruct (decide (n = x)).
  - rewrite marked_insert. by destruct (decide (n = n)).
Qed.

(** Everything a visit lists is a node of the graph. *)
Lemma visit_nodes g fuel n s s' :
  wf g → n ∈ DirectedGraph.nodes g →
  (∀ x, x ∈ DFSSorter.sorted s → x ∈ DirectedGraph.nodes g) →
  DFSSorter.visit g fuel n s = Ok s' →
  ∀ x, x ∈ DFSSorter.sorted s' → x ∈ DirectedGraph.nodes g.
Proof.
  intros Hwf. revert n s s'.
  induction fuel as [|fuel IH]; intros n s s' Hn Hs; simpl; [done|].
  destruct (DFSSorter.marked (DFSSorter.discovered s) n); [by intros [= <-]|].
  destruct (DFSSorter.marked (DFSSorter.visiting s) n); [done|].
  destruct (for_each _ _ _) as [s2| | |] eqn:Hloop; try done.
  intros [= <-] x; simpl.
  intros [Hx|Hx%list_elem_of_singleton]%elem_of_app; [|by subst].
  revert x Hx.
  eapply (for_each_Ok_inv _
    (λ t, ∀ x, x ∈ DFSSorter.sorted t → x ∈ DirectedGraph.nodes g));
    [| |exact Hloop]; [|exact Hs].
  intros y t t' Hy Ht Hv. eapply IH; [|exact Ht|exact Hv].
  by apply (wf_edge g n y).
Qed.

Lemma unvisited_same g m1 m2 :
  same_marks m1 m2 → unvisited g m1 = unvisited g m2.
Proof.
  intros Hsame. unfold unvisited.
  induction (DirectedGraph.nodes g) as [|x l IH]; [done|].
  rewrite !filter_cons, Hsame.
  destruct (decide (DFSSorter.marked m2 x = false)); simpl; by rewrite IH.
Qed.

Lemma unvisited_insert g m n :
  n ∈ DirectedGraph.nodes g → DFSSorter.marked m n = false →
  (unvisited g (<[n := true]> m) < unvisited g m)%nat.
Proof.
  intros Hn Hm. unfold unvisited.
  assert (∀ l : list Node,
    (length (filter (λ x, DFSSorter.marked (<[n:=true]> m) x = false) l)
     ≤ length (filter (λ x, DFSSorter.marked m x = false) l))%nat) as Hle.
  { induction l as [|x l IH]; [done|].
    rewrite !filter_cons, marked_insert.
    destruct (decide (n = x)) as [->|Hne].
    - destruct (decide (true = false)); [done|].
      destruct (decide (DFSSorter.marked m x = false)); simpl; lia.
    - destruct (decide (DFSSorter.marked m x = false)); simpl; lia. }
  induction (DirectedGraph.nodes g) as [|x l IH]; [by apply elem_of_nil in Hn|].
  rewrite !filter_cons, marked_insert.
  apply elem_of_cons in Hn as [<-|Hn].
  - destruct (decide (n = n)); [|done].
    destruct (decide (true = false)); [done|].
    destruct (decide (DFSSorter.marked m n = false)); [|done].
    simpl. specialize (Hle l). lia.
  - specialize (IH Hn).
    destruct (decide (n = x)) as [->|Hne].
    + destruct (decide (true = false)); [done|].
      destruct (decide (DFSSorter.marked m x = false)); simpl; lia.
    + destruct (decide (DFSSorter.marked m x = false)); simpl; lia.
Qed.

(** The budget suffices: every nested visit sets a temporary mark on a
    node that had none. *)
Lemma visit_fuel g fuel n s :
  wf g → n ∈ DirectedGraph.nodes g →
  (unvisited g (DFSSorter.visiting s) < fuel)%nat →
  DFSSorter.visit g fuel n s ≠ OutOfFuel.
Proof.
  intros Hwf. revert n s.
  induction fuel as [|fuel IH]; intros n s Hn Hlt; simpl; [lia|].
  destruct (DFSSorter.marked (DFSSorter.discovered s) n); [done|].
  destruct (DFSSorter.marked (DFSSorter.visiting s) n) eqn:HV; [done|].
  set (s1 := DFSSorter.mk _ _ _).
  pose proof (for_each_elim (DFSSorter.visit g fuel)
    (λ t, same_marks (DFSSorter.visiting s1) (DFSSorter.visiting t))
    (λ o, o ≠ OutOfFuel) (DirectedGraph.OutgoingEdges g n) s1) as Hel.
  destruct (for_each _ _ s1) eqn:Hloop; try done.
  apply Hel; [|apply same_marks_refl].
  intros y t Hy Ht.
  destruct (DFSSorter.visit g fuel y t) as [t'| | |] eqn:Hv; try done.
  - eapply same_marks_trans; [done|]. by eapply visit_visiting.
  - exfalso. revert Hv. apply IH.
    + by apply (wf_edge g n y).
    + rewrite <- (unvisited_same g _ _ Ht). simpl.
      pose proof (unvisited_insert g (DFSSorter.visiting s) n Hn HV). lia.
Qed.

(** On an acyclic graph no visit meets a temporary mark: the marked
    nodes all reach the node that is being visited. *)
Lemma visit_no_error g fuel n s e :
  acyclic g →
  (∀ x, DFSSorter.marked (DFSSorter.visiting s) x = true → tc (edge g) x n) →
  DFSSorter.visit g fuel n s ≠ Err e.
Proof.
  intros Hacyc. revert n s.
  induction fuel as [|fuel IH]; intros n s Hpath; simpl; [done|].
  destruct (DFSSorter.marked (DFSSorter.discovered s) n); [done|].
  destruct (DFSSorter.marked (DFSSorter.visiting s) n) eqn:HV.
  { by destruct (Hacyc n (Hpath n HV)). }
  set (s1 := DFSSorter.mk _ _ _).
  pose proof (for_each_elim (DFSSorter.visit g fuel)
    (λ t, same_marks (DFSSorter.visiting s1) (DFSSorter.visiting t))
    (λ o, o ≠ Err e) (DirectedGraph.OutgoingEdges g n) s1) as Hel.
  destruct (for_each _ _ s1) eqn:Hloop; try done.
  intros [= ->]. revert Hel. intros Hel. apply Hel; [|apply same_marks_refl|done].
  intros y t Hy Ht.
  destruct (DFSSorter.visit g fuel y t) as [t'| | |] eqn:Hv; try done.
  - eapply same_marks_trans; [done|]. by eapply visit_visiting.
  - intros [= ->]. revert Hv. apply IH.
    intros x. rewrite <- Ht. simpl. rewrite marked_insert.
    destruct (decide (n = x)) as [<-|Hne]; intros Hx.
    + by apply tc_once.
    + eapply tc_r; [by apply Hpath|done].
Qed.

End dfs.

(** ** The closing loop of the sort *)

Section rev.
Context {Node : Type} `{Countable Node}.

Lemma list_snoc_case {A} (l : list A) : l = [] ∨ ∃ l' y, l = l' ++ [y].
Proof. induction l using rev_ind; [by left|right; eauto]. Qed.

Lemma reverse_loop_middle n (a mid b : list Node) :
  (length mid ≤ n)%nat →
  DFSSorter.reverse_loop n (Z.of_nat (length a))
    (Z.of_nat (length a) + Z.of_nat (length mid) - 1) (a ++ mid ++ b)
  = Ok (a ++ reverse mid ++ b).
Proof.
  revert a mid b. induction n as [|n IH]; intros a mid b Hn.
  - destruct mid; [|simpl in Hn; lia]. simpl. case_ltb; [lia|done].
  - destruct mid as [|x mid].
    { simpl. case_ltb; [lia|done]. }
    destruct (list_snoc_case mid) as [->|(mid' & y & ->)].
    { cbn [DFSSorter.reverse_loop]. case_ltb; [simpl in *; lia|done]. }
    cbn [DFSSorter.reverse_loop].
    case_ltb.
    2:{ simpl in *. rewrite length_app in *. simpl in *. lia. }
    rewrite Nat2Z.id.
    replace (Z.to_nat (Z.of_nat (length a) + Z.of_nat (length (x :: mid' ++ [y])) - 1))
      with (length (a ++ x :: mid')).
    2:{ simpl. rewrite !length_app. simpl. lia. }
    assert ((a ++ (x :: mid' ++ [y]) ++ b) !! length a = Some x) as ->
      by (by apply list_lookup_middle).
    assert ((a ++ (x :: mid' ++ [y]) ++ b) !! length (a ++ x :: mid') = Some y) as ->.
    { replace (a ++ (x :: mid' ++ [y]) ++ b) with ((a ++ x :: mid') ++ y :: b)
        by (simpl; by rewrite <- !app_assoc).
      by apply list_lookup_middle. }
    assert (<[length (a ++ x :: mid') := x]>
              (<[length a := y]> (a ++ (x :: mid' ++ [y]) ++ b))
            = (a ++ [y]) ++ mid' ++ (x :: b)) as ->.
    { rewrite (insert_app_r_alt a) by lia. rewrite Nat.sub_diag. simpl.
      replace (a ++ y :: (mid' ++ [y]) ++ b) with ((a ++ y :: mid') ++ y :: b)
        by (simpl; by rewrite <- !app_assoc).
      replace (length (a ++ x :: mid')) with (length (a ++ y :: mid'))
        by (by rewrite !length_app).
      rewrite insert_app_r_alt by lia. rewrite Nat.sub_diag. simpl.
      by rewrite <- !app_assoc. }
    replace (Z.of_nat (length a) + 1) with (Z.of_nat (length (a ++ [y])))
      by (rewrite length_app; simpl; lia).
    replace (Z.of_nat (length a) + Z.of_nat (length (x :: mid' ++ [y])) - 1 - 1)
      with (Z.of_nat (length (a ++ [y])) + Z.of_nat (length mid') - 1)
      by (simpl; rewrite !length_app; simpl; lia).
    rewrite IH.
    2:{ simpl in Hn. rewrite length_app in Hn. simpl in Hn. lia. }
    f_equal. rewrite reverse_cons, reverse_snoc. simpl.
    by rewrite <- !app_assoc.
Qed.

Lemma reverse_loop_reverse (l : list Node) :
  DFSSorter.reverse_loop (length l) 0 (Z.of_nat (length l) - 1) l
  = Ok (reverse l).
Proof.
  pose proof (reverse_loop_middle (length l) [] l [] (le_n _)) as Hmid.
  simpl in Hmid. by rewrite !app_nil_r in Hmid.
Qed.
End rev.

(** ** The sort as a whole *)

Section dfs.
Context {Node : Type} `{Countable Node}.
Implicit Types (g : DirectedGraph.t Node) (s : DFSSorter.t Node).
Implicit Types (m : gmap Node bool) (n x y : Node).

Lemma visit_outcome g fuel n s :
  match DFSSorter.visit g fuel n s with
  | Ok _ | OutOfFuel | Err ErrCyclicGraph => True
  | _ => False
  end.
Proof.
  revert n s. induction fuel as [|fuel IH]; intros n s; simpl; [done|].
  destruct (DFSSorter.marked (DFSSorter.discovered s) n); [done|].
  destruct (DFSSorter.marked (DFSSorter.visiting s) n); [done|].
  set (s1 := DFSSorter.mk _ _ _).
  pose proof (for_each_elim (DFSSorter.visit g fuel) (λ _, True)
    (λ o, match o with
          | Ok _ | OutOfFuel | Err ErrCyclicGraph => True
          | _ => False
          end) (DirectedGraph.OutgoingEdges g n) s1) as Hel.
  destruct (for_each _ _ s1) as [|e| |]; try done; apply Hel; try done.
  all: intros y t _ _; specialize (IH y t);
    by destruct (DFSSorter.visit g fuel y t).
Qed.

Lemma dfs_inv_init g : dfs_inv g DFSSorter.init.
Proof.
  split; [apply NoDup_nil_2|]. split.
  - intros x. simpl. rewrite marked_empty. split; [done|by intros ?%elem_of_nil].
  - by intros i x y.
Qed.

Lemma Sort_unfold g :
  DFSSort g
  = match for_each (DFSSorter.visit g (S (length (DirectedGraph.Nodes g))))
                   (DirectedGraph.Nodes g) DFSSorter.init with
    | Ok s => Ok (reverse (DFSSorter.sorted s))
    | Err e => Err e
    | Panic => Panic
    | OutOfFuel => OutOfFuel
    end.
Proof.
  unfold DFSSort, DFSSorter.Sort.
  destruct (for_each _ _ _); try done. apply reverse_loop_reverse.
Qed.

Lemma before_reverse (l : list Node) (i j : nat) u v :
  l !! i = Some u → l !! j = Some v → (j < i)%nat → before (reverse l) u v.
Proof.
  intros Hi Hj Hji.
  pose proof (lookup_lt_Some _ _ _ Hi) as Hilt.
  exists (length l - S i)%nat, (length l - S j)%nat.
  rewrite !reverse_lookup_Some.
  replace (length l - S (length l - S i))%nat with i by lia.
  replace (length l - S (length l - S j))%nat with j by lia.
  repeat split; try done; lia.
Qed.

(** What a sort that returns a list has returned. *)
Lemma DFSSort_Ok g l :
  DFSSort g = Ok l →
  NoDup l
  ∧ (∀ x, x ∈ DirectedGraph.Nodes g → x ∈ l)
  ∧ (∀ u v, u ∈ l → edge g u v → before l u v).
Proof.
  rewrite Sort_unfold.
  destruct (for_each _ _ _) as [s| | |] eqn:Hloop; try done.
  intros [= <-].
  destruct (for_each_visit_step g _ (visit_step g _) _ _ _ (dfs_inv_init g) Hloop)
    as [((Hnd & HD & Hord) & _) Hall].
  split; [|split].
  - by rewrite reverse_Permutation.
  - intros x Hx. rewrite elem_of_reverse. apply HD. by apply Hall.
  - intros u v Hu Huv. rewrite elem_of_reverse in Hu.
    apply list_elem_of_lookup in Hu as [i Hi].
    destruct (Hord _ _ _ Hi Huv) as (j & Hj & Hjv).
    by eapply before_reverse.
Qed.

Lemma DFSSort_Ok_nodes g l :
  wf g → DFSSort g = Ok l → l ≡ₚ DirectedGraph.Nodes g.
Proof.
  intros Hwf Hsort.
  destruct (DFSSort_Ok g l Hsort) as (Hnd & Hall & _).
  apply NoDup_Permutation; [done|by apply wf_NoDup|].
  intros x. split; [|by apply Hall].
  revert Hsort. rewrite Sort_unfold.
  destruct (for_each _ _ _) as [s| | |] eqn:Hloop; try done.
  intros [= <-]. rewrite elem_of_reverse. revert x.
  eapply (for_each_Ok_inv _
    (λ t, ∀ x, x ∈ DFSSorter.sorted t → x ∈ DirectedGraph.nodes g));
    [| |exact Hloop]; [|by intros x ?%elem_of_nil].
  intros y t t' Hy Ht Hv. by eapply visit_nodes.
Qed.

(** The sort of a well-formed graph ends within its budget. *)
Lemma DFSSort_fuel g : wf g → DFSSort g ≠ OutOfFuel.
Proof.
  intros Hwf. rewrite Sort_unfold.
  pose proof (for_each_elim
    (DFSSorter.visit g (S (length (DirectedGraph.Nodes g))))
    (λ t, same_marks (DFSSorter.visiting (DFSSorter.init (Node:=Node)))
                     (DFSSorter.visiting t))
    (λ o, o ≠ OutOfFuel) (DirectedGraph.Nodes g) DFSSorter.init) as Hel.
  destruct (for_each _ _ _) eqn:Hloop; try done.
  intros _. apply Hel; [|apply same_marks_refl|done].
  intros y t Hy Ht.
  destruct (DFSSorter.visit g _ y t) as [t'| | |] eqn:Hv; try done.
  - eapply same_marks_trans; [done|]. by eapply visit_visiting.
  - exfalso. revert Hv. apply visit_fuel; [done|done|].
    unfold unvisited, DirectedGraph.Nodes.
    pose proof (length_filter (λ x, DFSSorter.marked (DFSSorter.visiting t) x = false)
                  (DirectedGraph.nodes g)). lia.
Qed.

Lemma DFSSort_outcome g :
  match DFSSort g with
  | Ok _ | OutOfFuel | Err ErrCyclicGraph => True
  | _ => False
  end.
Proof.
  rewrite Sort_unfold.
  pose proof (for_each_elim
    (DFSSorter.visit g (S (length (DirectedGraph.Nodes g)))) (λ _, True)
    (λ o, match o with
          | Ok _ | OutOfFuel | Err ErrCyclicGraph => True
          | _ => False
          end) (DirectedGraph.Nodes g) DFSSorter.init) as Hel.
  destruct (for_each _ _ _) as [|e| |]; try done; apply Hel; try done.
  all: intros y t _ _;
    pose proof (visit_outcome g (S (length (DirectedGraph.Nodes g))) y t);
    by destruct (DFSSorter.visit g _ y t).
Qed.

Lemma DFSSort_no_error g e : acyclic g → DFSSort g ≠ Err e.
Proof.
  intros Hacyc. rewrite Sort_unfold.
  pose proof (for_each_elim
    (DFSSorter.visit g (S (length (DirectedGraph.Nodes g))))
    (λ t, same_marks (DFSSorter.visiting (DFSSorter.init (Node:=Node)))
                     (DFSSorter.visiting t))
    (λ o, o ≠ Err e) (DirectedGraph.Nodes g) DFSSorter.init) as Hel.
  destruct (for_each _ _ _) eqn:Hloop; try done.
  intros [= ->]. apply Hel; [|apply same_marks_refl|done].
  intros y t Hy Ht.
  destruct (DFSSorter.visit g _ y t) as [t'| | |] eqn:Hv; try done.
  - eapply same_marks_trans; [done|]. by eapply visit_visiting.
  - intros [= ->]. revert Hv. apply visit_no_error; [done|].
    intros x. rewrite <- Ht. simpl. by rewrite marked_empty.
Qed.

Lemma DFSSort_acyclic g :
  wf g → acyclic g → ∃ l, DFSSort g = Ok l.
Proof.
  intros Hwf Hacyc.
  pose proof (DFSSort_fuel g Hwf). pose proof (DFSSort_outcome g).
  pose proof (DFSSort_no_error g ErrCyclicGraph Hacyc).
  destruct (DFSSort g) as [l|[]| |]; try done. by exists l.
Qed.

Lemma DFSSort_Ok_acyclic g l : DFSSort g = Ok l → wf g → acyclic g.
Proof.
  intros Hsort Hwf.
  destruct (DFSSort_Ok g l Hsort) as (Hnd & Hall & Hord).
  apply (before_acyclic g l Hnd).
  intros u v Huv. apply Hord; [|done]. apply Hall.
  by apply (wf_edge g u v).
Qed.

Lemma DFSSort_cyclic g :
  wf g → ¬ acyclic g → DFSSort g = Err ErrCyclicGraph.
Proof.
  intros Hwf Hcyc.
  pose proof (DFSSort_fuel g Hwf). pose proof (DFSSort_outcome g).
  destruct (DFSSort g) as [l|[]| |] eqn:Hsort; try done.
  destruct Hcyc. by eapply DFSSort_Ok_acyclic.
Qed.

End dfs.

(** ** The transitive reduction *)

Section reduction_facts.
Context {Node : Type} `{Countable Node}.
Implicit Types (g : DirectedGraph.t Node) (u v w x y : Node).

Lemma existsb_elem_of {A} (f : A → bool) (l : list A) :
  existsb f l = true ↔ ∃ a, a ∈ l ∧ f a = true.
Proof.
  rewrite existsb_exists. by setoid_rewrite list_elem_of_In.
Qed.

Lemma wf_alt g :
  wf g ↔
  NoDup (DirectedGraph.nodes g)
  ∧ (∀ u v, edge g u v →
       u ∈ DirectedGraph.nodes g ∧ v ∈ DirectedGraph.nodes g)
  ∧ (∀ u v, u ∈ DirectedGraph.IncomingEdges g v ↔ edge g u v).
Proof.
  split.
  - intros Hwf. split; [by apply wf_NoDup|]. split.
    + intros u v Huv. by destruct (wf_edge g u v Hwf Huv) as (? & ? & _).
    + intros u v. by apply wf_incoming.
  - intros (Hnd & Hnodes & Hio). split; [done|]. split.
    + intros u vs Hvs. apply Forall_forall. intros v Hv.
      assert (edge g u v) as Huv by (apply elem_of_OutgoingEdges; eauto).
      destruct (Hnodes _ _ Huv). by rewrite Hio.
    + intros v us Hus. apply Forall_forall. intros u Hu.
      apply Hio, elem_of_IncomingEdges. eauto.
Qed.

Lemma RemoveEdge_nodes g u v :
  DirectedGraph.nodes (DirectedGraph.RemoveEdge g u v) = DirectedGraph.nodes g.
Proof. unfold DirectedGraph.RemoveEdge. by destruct (DirectedGraph.EdgeExists g u v). Qed.

Lemma RemoveEdge_edge g u v x y :
  edge (DirectedGraph.RemoveEdge g u v) x y ↔ edge g x y ∧ ¬ (x = u ∧ y = v).
Proof.
  unfold DirectedGraph.RemoveEdge, DirectedGraph.EdgeExists.
  case_bool_decide as Huv.
  - unfold edge at 1, DirectedGraph.OutgoingEdges at 1. simpl.
    rewrite lookup_insert. destruct (decide (u = x)) as [->|Hne]; simpl.
    + rewrite list_elem_of_filter. unfold edge. split.
      * intros [Hne Hy]. split; [done|]. by intros [_ ?].
      * intros [Hy Hne]. split; [|done]. intros ->. by apply Hne.
    + unfold edge, DirectedGraph.OutgoingEdges. split; [|by intros []].
      intros Hy. split; [done|]. by intros [-> _].
  - split; [|by intros []]. intros Hxy. split; [done|].
    intros [-> ->]. by apply Huv.
Qed.

Lemma RemoveEdge_incoming g u v x y :
  x ∈ DirectedGraph.IncomingEdges (DirectedGraph.RemoveEdge g u v) y
  ↔ x ∈ DirectedGraph.IncomingEdges g y
    ∧ (DirectedGraph.EdgeExists g u v = true → ¬ (x = u ∧ y = v)).
Proof.
  unfold DirectedGraph.RemoveEdge.
  destruct (DirectedGraph.EdgeExists g u v) eqn:Huv.
  - unfold DirectedGraph.IncomingEdges at 1. simpl.
    rewrite lookup_insert. destruct (decide (v = y)) as [->|Hne]; simpl.
    + rewrite list_elem_of_filter. split.
      * intros [Hne Hx]. split; [done|]. by intros _ [? _].
      * intros [Hx Hne]. split; [|done]. intros ->. by apply Hne.
    + unfold DirectedGraph.IncomingEdges. split; [|by intros []].
      intros Hx. split; [done|]. by intros _ [_ ->].
  - split; [|by intros []]. by intros Hx.
Qed.

Lemma RemoveEdge_wf g u v : wf g → wf (DirectedGraph.RemoveEdge g u v).
Proof.
  rewrite !wf_alt. intros (Hnd & Hnodes & Hio).
  rewrite RemoveEdge_nodes. split; [done|]. split.
  - intros x y [Hxy _]%RemoveEdge_edge. by apply Hnodes.
  - intros x y. rewrite RemoveEdge_incoming, RemoveEdge_edge, Hio.
    split; [|by intros [Hxy Hne]]. intros [Hxy Hne]. split; [done|].
    intros [-> ->]. apply Hne; [|done].
    unfold DirectedGraph.EdgeExists. by apply bool_decide_eq_true.
Qed.

Lemma subgraph_refl g : subgraph g g.
Proof. done. Qed.

Lemma subgraph_trans g1 g2 g3 :
  subgraph g1 g2 → subgraph g2 g3 → subgraph g1 g3.
Proof.
  intros [Hn1 He1] [Hn2 He2]. split; [congruence|]. auto.
Qed.

Lemma RemoveEdge_subgraph g u v : subgraph (DirectedGraph.RemoveEdge g u v) g.
Proof.
  split; [apply RemoveEdge_nodes|]. by intros x y [? _]%RemoveEdge_edge.
Qed.

Lemma subgraph_tc g' g x y :
  subgraph g' g → tc (edge g') x y → tc (edge g) x y.
Proof.
  intros [_ Hsub]. induction 1 as [x y Hxy|x y z Hxy _ IH].
  - apply tc_once. by apply Hsub.
  - eapply tc_l; [by apply Hsub|done].
Qed.

Lemma subgraph_acyclic g' g : subgraph g' g → acyclic g → acyclic g'.
Proof. intros Hsub Hacyc x Hx. apply (Hacyc x). by eapply subgraph_tc. Qed.

(** ** Reachability as computed *)

Lemma reaches_sound g fuel w v :
  reaches g fuel w v = true → rtc (edge g) w v.
Proof.
  revert w. induction fuel as [|fuel IH]; intros w; simpl; [done|].
  intros [Heq|Hex]%orb_true_iff.
  - apply bool_decide_eq_true in Heq as ->. done.
  - apply existsb_elem_of in Hex as (x & Hx & Hxv).
    eapply rtc_l; [exact Hx|]. by apply IH.
Qed.

Lemma reaches_mono g' g fuel w v :
  (∀ x y, edge g' x y → edge g x y) →
  reaches g' fuel w v = true → reaches g fuel w v = true.
Proof.
  intros Hsub. revert w. induction fuel as [|fuel IH]; intros w; simpl; [done|].
  rewrite !orb_true_iff, !existsb_elem_of.
  intros [Heq|(x & Hx & Hxv)]; [by left|right].
  exists x. split; [by apply Hsub|by apply IH].
Qed.

Lemma implied_mono g' g u v :
  subgraph g' g → implied g' u v = true → implied g u v = true.
Proof.
  intros [Hnodes Hsub]. unfold implied, reachable, DirectedGraph.Nodes.
  rewrite !existsb_elem_of. intros (w & Hw & Hwv).
  exists w. split; [by apply Hsub|].
  apply andb_true_iff in Hwv as [Hne Hreach].
  apply andb_true_iff. split; [done|].
  rewrite <- Hnodes. by eapply reaches_mono.
Qed.

Lemma implied_sound g u v :
  implied g u v = true →
  ∃ w, edge g u w ∧ w ≠ v ∧ rtc (edge g) w v.
Proof.
  unfold implied. intros (w & Hw & Hwv)%existsb_elem_of.
  apply andb_true_iff in Hwv as [Hne Hreach].
  exists w. split; [done|]. split.
  - apply negb_true_iff, bool_decide_eq_false in Hne. done.
  - by eapply reaches_sound.
Qed.

(** ** One step of the reduction *)

Lemma rtc_avoid (R : relation Node) u w v :
  rtc R w v → ¬ rtc R w u → rtc (λ x y, R x y ∧ x ≠ u) w v.
Proof.
  induction 1 as [w|w x v Hwx _ IH]; intros Hnot; [done|].
  eapply rtc_l.
  - split; [exact Hwx|]. intros ->. by apply Hnot.
  - apply IH. intros Hxu. apply Hnot. by eapply rtc_l.
Qed.

Lemma RemoveEdge_reach g u v w a b :
  acyclic g → edge g u w → w ≠ v → rtc (edge g) w v →
  rtc (edge g) a b → rtc (edge (DirectedGraph.RemoveEdge g u v)) a b.
Proof.
  intros Hacyc Huw Hwv Hreach.
  assert (rtc (edge (DirectedGraph.RemoveEdge g u v)) u v) as Hdetour.
  { eapply rtc_l; [apply RemoveEdge_edge; split; [exact Huw|]; by intros [_ ?]|].
    eapply rtc_subrel; [|apply (rtc_avoid (edge g) u w v Hreach)].
    - intros x y [Hxy Hx]. apply RemoveEdge_edge. split; [done|]. by intros [? _].
    - intros Hwu. apply (Hacyc u). by eapply tc_rtc_r; [apply tc_once|]. }
  induction 1 as [a|a x b Hax _ IH]; [done|].
  etrans; [|exact IH].
  destruct (decide (a = u ∧ x = v)) as [[-> ->]|Hne]; [done|].
  apply rtc_once, RemoveEdge_edge. done.
Qed.

Lemma reduces_refl g : wf g → reduces g g.
Proof. intros Hwf. split; [apply subgraph_refl|]. done. Qed.

Lemma reduce_edge_subgraph g u v : subgraph (reduce_edge u g v) g.
Proof.
  unfold reduce_edge. destruct (implied g u v);
    [apply RemoveEdge_subgraph|apply subgraph_refl].
Qed.

Lemma reduce_edge_reduces g0 g u v :
  acyclic g0 → reduces g0 g → reduces g0 (reduce_edge u g v).
Proof.
  intros Hacyc (Hsub & Hwf & Hreach).
  split; [|split].
  - eapply subgraph_trans; [apply reduce_edge_subgraph|done].
  - unfold reduce_edge. destruct (implied g u v); [by apply RemoveEdge_wf|done].
  - unfold reduce_edge. destruct (implied g u v) eqn:Himp; [|done].
    destruct (implied_sound _ _ _ Himp) as (w & Huw & Hwv & Hw).
    intros a b Hab. eapply RemoveEdge_reach; eauto.
    by eapply subgraph_acyclic.
Qed.

Lemma foldl_reduce_edge_reduces g0 u vs g :
  acyclic g0 → reduces g0 g → reduces g0 (foldl (reduce_edge u) g vs).
Proof.
  intros Hacyc. revert g. induction vs as [|v vs IH]; intros g Hg; simpl; [done|].
  by apply IH, reduce_edge_reduces.
Qed.

Lemma reduce_node_reduces g0 g u :
  acyclic g0 → reduces g0 g → reduces g0 (reduce_node g u).
Proof. intros. by apply foldl_reduce_edge_reduces. Qed.

Lemma foldl_reduce_node_reduces g0 us g :
  acyclic g0 → reduces g0 g → reduces g0 (foldl reduce_node g us).
Proof.
  intros Hacyc. revert g. induction us as [|u us IH]; intros g Hg; simpl; [done|].
  by apply IH, reduce_node_reduces.
Qed.

(** The reduction of a well-formed graph: a well-formed graph on the
    same nodes, with some of the edges and all of the paths. *)
Lemma RemoveTransitives_reduces g :
  wf g → reduces g (RemoveTransitives g).1.
Proof.
  intros Hwf. unfold RemoveTransitives.
  destruct (DFSSort g) as [order| | |] eqn:Hsort; simpl;
    try by apply reduces_refl.
  apply foldl_reduce_node_reduces; [|by apply reduces_refl].
  by eapply DFSSort_Ok_acyclic.
Qed.

End reduction_facts.

(** ** A second reduction *)

Section reduction_fixpoint.
Context {Node : Type} `{Countable Node}.
Implicit Types (g : DirectedGraph.t Node) (u v w x y : Node).

Lemma settled_subgraph g' g u : subgraph g' g → settled g u → settled g' u.
Proof.
  intros Hsub Hset v Huv.
  destruct (implied g' u v) eqn:Himp; [|done].
  rewrite <- (Hset v); [|by apply Hsub].
  symmetry. by eapply implied_mono.
Qed.

Lemma foldl_reduce_edge_settled u vs g :
  subgraph (foldl (reduce_edge u) g vs) g
  ∧ ∀ v, v ∈ vs → edge (foldl (reduce_edge u) g vs) u v →
         implied (foldl (reduce_edge u) g vs) u v = false.
Proof.
  revert g. induction vs as [|v0 vs IH]; intros g; simpl.
  { split; [apply subgraph_refl|]. by intros v ?%elem_of_nil. }
  destruct (IH (reduce_edge u g v0)) as [Hsub Hvs].
  split; [eapply subgraph_trans; [done|apply reduce_edge_subgraph]|].
  intros v [->|Hv]%elem_of_cons; [|by apply Hvs].
  intros Hedge. apply Hsub in Hedge.
  destruct (implied (foldl _ _ _) u v0) eqn:Himp; [|done].
  apply (implied_mono _ _ _ _ Hsub) in Himp.
  revert Hedge Himp. unfold reduce_edge.
  destruct (implied g u v0) eqn:Hg; [|congruence].
  intros [_ Hne]%RemoveEdge_edge. by destruct Hne.
Qed.

Lemma reduce_node_subgraph g u : subgraph (reduce_node g u) g.
Proof. apply foldl_reduce_edge_settled. Qed.

Lemma reduce_node_settled g u : settled (reduce_node g u) u.
Proof.
  intros v Huv. apply foldl_reduce_edge_settled; [|done].
  by apply (reduce_node_subgraph g u).
Qed.

Lemma foldl_reduce_node_settled us g :
  subgraph (foldl reduce_node g us) g
  ∧ ∀ u, u ∈ us → settled (foldl reduce_node g us) u.
Proof.
  revert g. induction us as [|u0 us IH]; intros g; simpl.
  { split; [apply subgraph_refl|]. by intros u ?%elem_of_nil. }
  destruct (IH (reduce_node g u0)) as [Hsub Hus].
  split; [eapply subgraph_trans; [done|apply reduce_node_subgraph]|].
  intros u [->|Hu]%elem_of_cons; [|by apply Hus].
  eapply settled_subgraph; [done|apply reduce_node_settled].
Qed.

(** A settled node loses no edge. *)
Lemma reduce_node_id g u : settled g u → reduce_node g u = g.
Proof.
  intros Hset. unfold reduce_node.
  assert (∀ vs, (∀ v, v ∈ vs → edge g u v) → foldl (reduce_edge u) g vs = g)
    as Hfold.
  { induction vs as [|v vs IH]; intros Hvs; simpl; [done|].
    unfold reduce_edge at 2. rewrite Hset by (apply Hvs; left).
    apply IH. intros v' Hv'. apply Hvs. by right. }
  by apply Hfold.
Qed.

Lemma foldl_reduce_node_id g us :
  (∀ u, settled g u) → foldl reduce_node g us = g.
Proof.
  intros Hset. induction us as [|u us IH]; simpl; [done|].
  by rewrite reduce_node_id.
Qed.

(** After the reduction every node is settled. *)
Lemma RemoveTransitives_settled g u :
  wf g → (RemoveTransitives g).2 = Ok () → settled (RemoveTransitives g).1 u.
Proof.
  intros Hwf. unfold RemoveTransitives.
  destruct (DFSSort g) as [order| | |] eqn:Hsort; simpl; try done.
  intros _.
  destruct (foldl_reduce_node_settled order g) as [Hsub Hset].
  destruct (decide (u ∈ DirectedGraph.nodes g)) as [Hu|Hu].
  - apply Hset. rewrite (DFSSort_Ok_nodes g order Hwf Hsort). done.
  - intros v Huv. apply Hsub in Huv. destruct Hu. by apply (wf_edge g u v).
Qed.

Lemma RemoveTransitives_id g :
  (∀ u, settled g u) → (RemoveTransitives g).1 = g.
Proof.
  intros Hset. unfold RemoveTransitives.
  destruct (DFSSort g); simpl; try done. by apply foldl_reduce_node_id.
Qed.

Lemma RemoveTransitives_failed g :
  (RemoveTransitives g).2 ≠ Ok () → (RemoveTransitives g).1 = g.
Proof.
  unfold RemoveTransitives. destruct (DFSSort g); simpl; done.
Qed.

Lemma RemoveTransitives_twice g :
  wf g →
  (RemoveTransitives (RemoveTransitives g).1).1 = (RemoveTransitives g).1.
Proof.
  intros Hwf.
  destruct ((RemoveTransitives g).2) as [[]| | |] eqn:Hstatus.
  { apply RemoveTransitives_id. intros u. by apply RemoveTransitives_settled. }
  all: by rewrite !(RemoveTransitives_failed g) by (by rewrite Hstatus).
Qed.

End reduction_fixpoint.

(** ** Reachability as computed is reachability *)

Section reachable_facts.
Context {Node : Type} `{Countable Node}.
Implicit Types (g : DirectedGraph.t Node) (u v w x y : Node).

(** On an acyclic graph the search is deep enough: the nodes in [seen]
    lie on the way to [w], so the search from [w] meets none of them. *)
Lemma reaches_complete g fuel (seen : list Node) w v :
  wf g → acyclic g →
  NoDup seen → (∀ x, x ∈ seen → x ∈ DirectedGraph.nodes g) →
  (∀ x, x ∈ seen → tc (edge g) x w) →
  w ∈ DirectedGraph.nodes g →
  (length (DirectedGraph.nodes g) ≤ fuel + length seen)%nat →
  rtc (edge g) w v → reaches g fuel w v = true.
Proof.
  intros Hwf Hacyc. revert seen w.
  induction fuel as [|fuel IH]; intros seen w Hnd Hsub Hpath Hw Hfuel Hreach.
  - assert (w ∉ seen) as Hfresh.
    { intros Hin. by apply (Hacyc w), Hpath. }
    assert (length (w :: seen) ≤ length (DirectedGraph.nodes g))%nat as Hlen.
    { apply submseteq_length, NoDup_submseteq; [by apply NoDup_cons_2|].
      intros x [->|Hx]%elem_of_cons; [done|by apply Hsub]. }
    simpl in Hlen. lia.
  - simpl. apply orb_true_iff.
    destruct Hreach as [|w x v Hwx Hxv]; [left; by apply bool_decide_eq_true|].
    right. apply existsb_elem_of. exists x. split; [done|].
    assert (w ∉ seen) as Hfresh.
    { intros Hin. by apply (Hacyc w), Hpath. }
    apply (IH (w :: seen)).
    + by apply NoDup_cons_2.
    + intros y [->|Hy]%elem_of_cons; [done|by apply Hsub].
    + intros y [->|Hy]%elem_of_cons; [by apply tc_once|].
      eapply tc_r; [by apply Hpath|done].
    + by apply (wf_edge g w x).
    + simpl. lia.
    + done.
Qed.

Lemma reachable_complete g w v :
  wf g → acyclic g → w ∈ DirectedGraph.nodes g →
  rtc (edge g) w v → reachable g w v = true.
Proof.
  intros Hwf Hacyc Hw Hreach. unfold reachable, DirectedGraph.Nodes.
  apply (reaches_complete g _ [] w v); try done.
  - apply NoDup_nil_2.
  - by intros x ?%elem_of_nil.
  - by intros x ?%elem_of_nil.
  - simpl. lia.
Qed.

(** On a directed acyclic graph [implied] says what its name says. *)
Lemma implied_spec g u v :
  wf g → acyclic g →
  implied g u v = true ↔ ∃ w, edge g u w ∧ w ≠ v ∧ rtc (edge g) w v.
Proof.
  intros Hwf Hacyc. split; [apply implied_sound|].
  intros (w & Huw & Hwv & Hreach). unfold implied.
  apply existsb_elem_of. exists w. split; [done|].
  apply andb_true_iff. split.
  - by apply negb_true_iff, bool_decide_eq_false.
  - apply reachable_complete; try done. by apply (wf_edge g u w).
Qed.

(** The reduced graph has no edge that a longer path implies. *)
Lemma RemoveTransitives_minimal g u v w :
  wf g → acyclic g →
  edge (RemoveTransitives g).1 u v → edge (RemoveTransitives g).1 u w →
  w ≠ v → ¬ rtc (edge (RemoveTransitives g).1) w v.
Proof.
  intros Hwf Hacyc Huv Huw Hwv Hreach.
  destruct (RemoveTransitives_reduces g Hwf) as (Hsub & Hrwf & _).
  assert (implied (RemoveTransitives g).1 u v = true) as Himp.
  { apply implied_spec; [done|by eapply subgraph_acyclic|]. by exists w. }
  rewrite RemoveTransitives_settled in Himp; try done.
  unfold RemoveTransitives.
  destruct (DFSSort_acyclic g Hwf Hacyc) as [order ->]. done.
Qed.

(** ** The graphs that the operations build are well-formed *)

Lemma NewDirectedGraph_wf : wf (DirectedGraph.NewDirectedGraph (Node:=Node)).
Proof.
  split; [apply NoDup_nil_2|]. split; apply map_Forall_empty.
Qed.

Lemma AddNode_nodes g n x :
  x ∈ DirectedGraph.nodes (DirectedGraph.AddNode g n)
  ↔ x ∈ DirectedGraph.nodes g ∨ x = n.
Proof.
  unfold DirectedGraph.AddNode, DirectedGraph.NodeExists.
  case_bool_decide as Hn; simpl.
  - split; [by left|]. by intros [?| ->].
  - by rewrite elem_of_app, list_elem_of_singleton.
Qed.

Lemma AddNode_edges g n :
  DirectedGraph.outgoing (DirectedGraph.AddNode g n) = DirectedGraph.outgoing g
  ∧ DirectedGraph.incoming (DirectedGraph.AddNode g n) = DirectedGraph.incoming g.
Proof.
  unfold DirectedGraph.AddNode. by destruct (DirectedGraph.NodeExists g n).
Qed.

Lemma AddNode_wf g n : wf g → wf (DirectedGraph.AddNode g n).
Proof.
  rewrite !wf_alt. intros (Hnd & Hnodes & Hio).
  destruct (AddNode_edges g n) as [Hout Hin].
  unfold edge, DirectedGraph.OutgoingEdges, DirectedGraph.IncomingEdges in *.
  rewrite Hout, Hin. split; [|split].
  - unfold DirectedGraph.AddNode, DirectedGraph.NodeExists.
    case_bool_decide as Hn; [done|]. simpl.
    apply NoDup_app. split; [done|]. split; [|apply NoDup_singleton].
    by intros x Hx ->%list_elem_of_singleton.
  - intros u v Huv. rewrite !AddNode_nodes.
    destruct (Hnodes u v Huv). split; by left.
  - done.
Qed.

Lemma AddEdge_edge g u v x y :
  edge (DirectedGraph.AddEdge g u v) x y ↔ edge g x y ∨ (x = u ∧ y = v).
Proof.
  unfold DirectedGraph.AddEdge.
  set (g1 := DirectedGraph.AddNode (DirectedGraph.AddNode g u) v).
  assert (∀ a b, edge g1 a b ↔ edge g a b) as Hsame.
  { intros a b. unfold edge, DirectedGraph.OutgoingEdges, g1.
    by rewrite !(proj1 (AddNode_edges _ _)). }
  unfold DirectedGraph.EdgeExists. case_bool_decide as Huv.
  - rewrite Hsame. split; [by left|]. intros [?|[-> ->]]; [done|].
    by apply Hsame.
  - unfold edge at 1, DirectedGraph.OutgoingEdges at 1. simpl.
    rewrite lookup_insert. destruct (decide (u = x)) as [->|Hne]; simpl.
    + rewrite elem_of_app, list_elem_of_singleton.
      fold (edge g1 x y). rewrite Hsame. split.
      * intros [?| ->]; [by left|by right].
      * intros [?|[_ ->]]; [by left|by right].
    + fold (DirectedGraph.OutgoingEdges g1 x). fold (edge g1 x y).
      rewrite Hsame. split; [by left|]. by intros [?|[-> _]].
Qed.

Lemma AddEdge_incoming g u v x y :
  x ∈ DirectedGraph.IncomingEdges (DirectedGraph.AddEdge g u v) y
  ↔ x ∈ DirectedGraph.IncomingEdges g y
    ∨ (¬ edge g u v ∧ x = u ∧ y = v).
Proof.
  unfold DirectedGraph.AddEdge.
  set (g1 := DirectedGraph.AddNode (DirectedGraph.AddNode g u) v).
  assert (∀ a b, a ∈ DirectedGraph.IncomingEdges g1 b
                 ↔ a ∈ DirectedGraph.IncomingEdges g b) as Hsame.
  { intros a b. unfold DirectedGraph.IncomingEdges, g1.
    by rewrite !(proj2 (AddNode_edges _ _)). }
  assert (edge g1 u v ↔ edge g u v) as Huv1.
  { unfold edge, DirectedGraph.OutgoingEdges, g1.
    by rewrite !(proj1 (AddNode_edges _ _)). }
  unfold DirectedGraph.EdgeExists. case_bool_decide as Huv.
  - rewrite Hsame. split; [by left|]. intros [?|[Hno _]]; [done|].
    destruct Hno. by apply Huv1.
  - unfold DirectedGraph.IncomingEdges at 1. simpl.
    rewrite lookup_insert. destruct (decide (v = y)) as [->|Hne]; simpl.
    + rewrite elem_of_app, list_elem_of_singleton, Hsame. split.
      * intros [?| ->]; [by left|right]. split; [|done].
        intros Hno. by apply Huv, Huv1.
      * intros [?|(_ & -> & _)]; [by left|by right].
    + fold (DirectedGraph.IncomingEdges g1 y). rewrite Hsame.
      split; [by left|]. by intros [?|(_ & _ & ->)].
Qed.

Lemma AddEdge_nodes g u v x :
  x ∈ DirectedGraph.nodes (DirectedGraph.AddEdge g u v)
  ↔ x ∈ DirectedGraph.nodes g ∨ x = u ∨ x = v.
Proof.
  unfold DirectedGraph.AddEdge.
  destruct (DirectedGraph.EdgeExists _ u v); simpl;
    rewrite !AddNode_nodes; tauto.
Qed.

Lemma AddEdge_wf g u v : wf g → wf (DirectedGraph.AddEdge g u v).
Proof.
  intros Hwf.
  pose proof (AddNode_wf _ v (AddNode_wf _ u Hwf)) as Hwf1.
  apply wf_alt. split; [|split].
  - unfold DirectedGraph.AddEdge.
    destruct (DirectedGraph.EdgeExists _ u v); simpl; by apply wf_NoDup.
  - intros x y. rewrite AddEdge_edge, !AddEdge_nodes.
    intros [Hxy|[-> ->]]; [|split; auto].
    destruct (wf_edge g x y Hwf Hxy) as (? & ? & _). split; by left.
  - intros x y. rewrite AddEdge_incoming, AddEdge_edge, (wf_incoming g x y Hwf).
    split; [intros [?|(_ & -> & ->)]; [by left|by right]|].
    intros [?|[-> ->]]; [by left|].
    destruct (decide (edge g u v)); [by left|by right].
Qed.

End reachable_facts.

(** ** One placement *)

Section placement_facts.
Context {Node : Type} `{Countable Node}.
Implicit Types (reduced : DirectedGraph.t Node) (node d n : Node).
Implicit Types (layers : list (list Node)) (levels : gmap Node Z).
Implicit Types (width level dl z : Z).

Lemma index_Some {A} (xs : list A) (i : Z) (x : A) :
  index xs i = Some x ↔ 0 ≤ i ∧ xs !! Z.to_nat i = Some x.
Proof.
  unfold index. case_ltb.
  - split; [done|]. intros [? _]. lia.
  - split; [|by intros [_ ?]]. intros ?. split; [lia|done].
Qed.

Lemma index_in_range {A} (xs : list A) (i : Z) :
  0 ≤ i < len xs → ∃ x, index xs i = Some x.
Proof.
  intros Hi. destruct (lookup_lt_is_Some_2 xs (Z.to_nat i)) as [x Hx].
  { unfold len in Hi. lia. }
  exists x. apply index_Some. split; [lia|done].
Qed.

Lemma dependant_loop_Ok levels deps dl0 dl :
  dependant_loop levels deps dl0 = Ok dl →
  dl0 ≤ dl
  ∧ (∀ d, d ∈ deps → ∃ z, levels !! d = Some z ∧ z ≤ dl)
  ∧ (dl = dl0 ∨ ∃ d, d ∈ deps ∧ levels !! d = Some dl).
Proof.
  revert dl0. induction deps as [|d deps IH]; intros dl0; simpl.
  { intros [= <-]. split; [lia|]. split; [by intros d ?%elem_of_nil|by left]. }
  destruct (levels !! d) as [z|] eqn:Hd; [|done].
  intros (Hle & Hall & Hmax)%IH.
  split; [|split].
  - revert Hle. case_ltb; lia.
  - intros d' [->|Hd']%elem_of_cons; [|by apply Hall].
    exists z. split; [done|]. revert Hle. case_ltb; lia.
  - destruct Hmax as [->|(d' & Hd' & Hlev)].
    + case_ltb; [right|by left]. exists d. split; [by left|done].
    + right. exists d'. split; [by right|done].
Qed.

Lemma dependant_loop_total levels deps dl0 :
  (∀ d, d ∈ deps → is_Some (levels !! d)) →
  ∃ dl, dependant_loop levels deps dl0 = Ok dl.
Proof.
  revert dl0. induction deps as [|d deps IH]; intros dl0 Hall; simpl; [eauto|].
  destruct (Hall d) as [z ->]; [by left|].
  apply IH. intros d' Hd'. apply Hall. by right.
Qed.

Lemma unfilled_loop_Ok layers width fuel i :
  0 ≤ i → len layers - i ≤ Z.of_nat fuel →
  ∃ r, unfilled_loop layers width fuel i = Ok r
       ∧ (r = -1
          ∨ (i ≤ r < len layers
             ∧ ∃ layer, layers !! Z.to_nat r = Some layer ∧ len layer < width)).
Proof.
  revert i. induction fuel as [|fuel IH]; intros i Hi Hfuel.
  - simpl. case_ltb; [lia|]. exists (-1). split; [done|by left].
  - cbn [unfilled_loop]. case_ltb; [|exists (-1); split; [done|by left]].
    destruct (index_in_range layers i) as [layer Hlayer]; [lia|].
    rewrite Hlayer. apply index_Some in Hlayer as [_ Hlayer].
    case_ltb.
    + exists i. split; [done|]. right. split; [lia|]. by exists layer.
    + destruct (IH (i + 1)) as (r & -> & Hr); [lia|lia|].
      exists r. split; [done|]. destruct Hr as [->|[Hr Hex]]; [by left|].
      right. split; [lia|done].
Qed.

(** What one iteration has done when it comes to its end. *)
Lemma assign_Ok reduced width node layers levels layers' levels' level :
  assign reduced width node layers levels = Ok (layers', levels', level) →
  ∃ dl,
    dependant_loop levels (DirectedGraph.IncomingEdges reduced node) (-1) = Ok dl
    ∧ levels' = <[node := level]> levels
    ∧ 0 ≤ level
    ∧ (dl < len layers → dl < level)
    ∧ ((level < len layers
        ∧ ∃ layer, layers !! Z.to_nat level = Some layer
                   ∧ len layer < width
                   ∧ layers' = <[Z.to_nat level := layer ++ [node]]> layers)
       ∨ (level = len layers ∧ layers' = layers ++ [[node]])).
Proof.
  unfold assign.
  destruct (dependant_loop _ _ _) as [dl| | |] eqn:Hdl; try done.
  destruct (dependant_loop_Ok _ _ _ _ Hdl) as (Hge & _ & _).
  assert (∃ r, (if dl <? len layers - 1
                then unfilled_loop layers width (S (length layers)) (dl + 1)
                else Ok (-1)) = Ok r
               ∧ (r = -1
                  ∨ (dl + 1 ≤ r < len layers
                     ∧ ∃ layer, layers !! Z.to_nat r = Some layer
                                ∧ len layer < width))) as (r & -> & Hr).
  { case_ltb; [|exists (-1); split; [done|by left]].
    apply unfilled_loop_Ok; unfold len; lia. }
  destruct Hr as [->|(Hr & layer & Hlayer & Hroom)].
  - assert (len (layers ++ [[]]) - 1 = len layers) as Hlen
      by (unfold len; rewrite length_app; simpl; lia).
    cbv zeta. simpl. rewrite !Hlen.
    assert (index (layers ++ [[]]) (len layers) = Some []) as ->.
    { apply index_Some. split; [unfold len; lia|].
      unfold len. rewrite Nat2Z.id. by apply list_lookup_middle. }
    intros [= <- <- <-]. exists dl. split; [done|].
    split; [done|]. split; [unfold len; lia|].
    split; [lia|]. right. split; [done|].
    unfold len. rewrite Nat2Z.id.
    rewrite insert_app_r_alt by lia. by rewrite Nat.sub_diag.
  - assert ((r =? -1) = false) as -> by lia.
    assert (index layers r = Some layer) as ->.
    { apply index_Some. split; [lia|done]. }
    intros [= <- <- <-]. exists dl. split; [done|].
    split; [done|]. split; [lia|].
    split; [lia|]. left. split; [lia|]. by exists layer.
Qed.

(** An iteration whose dependants all have a level comes to its end. *)
Lemma assign_total reduced width node layers levels :
  (∀ d, d ∈ DirectedGraph.IncomingEdges reduced node → is_Some (levels !! d)) →
  ∃ res, assign reduced width node layers levels = Ok res.
Proof.
  intros Hdeps. unfold assign.
  destruct (dependant_loop_total levels _ (-1) Hdeps) as [dl Hdl].
  rewrite Hdl. destruct (dependant_loop_Ok _ _ _ _ Hdl) as (Hge & _ & _).
  assert (∃ r, (if dl <? len layers - 1
                then unfilled_loop layers width (S (length layers)) (dl + 1)
                else Ok (-1)) = Ok r
               ∧ (r = -1
                  ∨ (dl + 1 ≤ r < len layers
                     ∧ ∃ layer, layers !! Z.to_nat r = Some layer
                                ∧ len layer < width))) as (r & -> & Hr).
  { case_ltb; [|exists (-1); split; [done|by left]].
    apply unfilled_loop_Ok; unfold len; lia. }
  destruct Hr as [->|(Hr & layer & Hlayer & Hroom)].
  - assert (len (layers ++ [[]]) - 1 = len layers) as Hlen
      by (unfold len; rewrite length_app; simpl; lia).
    cbv zeta. simpl. rewrite !Hlen.
    assert (index (layers ++ [[]]) (len layers) = Some []) as ->.
    { apply index_Some. split; [unfold len; lia|].
      unfold len. rewrite Nat2Z.id. by apply list_lookup_middle. }
    eauto.
  - assert ((r =? -1) = false) as -> by lia.
    assert (index layers r = Some layer) as ->.
    { apply index_Some. split; [lia|done]. }
    eauto.
Qed.

End placement_facts.

(** ** Placement and the layering *)

Section layering_facts.
Context {Node : Type} `{Countable Node}.
Implicit Types (reduced : DirectedGraph.t Node) (node d n : Node).
Implicit Types (layers : list (list Node)) (levels : gmap Node Z).
Implicit Types (width level dl z : Z).

Lemma layering_empty width : layering width [] (∅ : gmap Node Z).
Proof.
  split; [|split].
  - intros n z. by rewrite lookup_empty.
  - by intros n i (layer & ? & _).
  - by apply Forall_nil.
Qed.

Lemma respects_empty reduced : respects reduced (∅ : gmap Node Z).
Proof. intros u v zv _. by rewrite lookup_empty. Qed.

Lemma extends_refl layers levels : extends layers layers levels levels.
Proof.
  split; [done|]. intros i layer Hi. exists []. by rewrite app_nil_r.
Qed.

Lemma extends_trans layers1 layers2 layers3 levels1 levels2 levels3 :
  extends layers1 layers2 levels1 levels2 →
  extends layers2 layers3 levels2 levels3 →
  extends layers1 layers3 levels1 levels3.
Proof.
  intros [Hlv1 Hly1] [Hlv2 Hly2]. split; [by auto|].
  intros i layer Hi. destruct (Hly1 _ _ Hi) as [more1 Hi2].
  destruct (Hly2 _ _ Hi2) as [more2 Hi3].
  exists (more1 ++ more2). by rewrite app_assoc.
Qed.

Lemma assign_extends reduced width node layers levels layers' levels' level :
  levels !! node = None →
  assign reduced width node layers levels = Ok (layers', levels', level) →
  extends layers layers' levels levels'.
Proof.
  intros Hnew (dl & _ & -> & Hlevel & _ & Hcase)%assign_Ok. split.
  - intros n z Hn. rewrite lookup_insert_ne; [done|]. by intros ->; congruence.
  - intros i layer Hi.
    destruct Hcase as [(Hlt & layer0 & Hlayer0 & _ & ->)|[_ ->]].
    + destruct (decide (i = Z.to_nat level)) as [->|Hne].
      * exists [node]. rewrite list_lookup_insert_eq
          by (by eapply lookup_lt_Some). congruence.
      * exists []. by rewrite list_lookup_insert_ne, app_nil_r.
    + exists []. rewrite app_nil_r. by apply lookup_app_l_Some.
Qed.

Lemma in_layer_bound layers n (i : nat) :
  in_layer layers n i → (i < length layers)%nat.
Proof. intros (layer & Hi & _). by eapply lookup_lt_Some. Qed.

Lemma assign_layering reduced width node layers levels layers' levels' level :
  1 ≤ width → levels !! node = None → layering width layers levels →
  assign reduced width node layers levels = Ok (layers', levels', level) →
  layering width layers' levels'.
Proof.
  intros Hwidth Hnew (Hlv & Hly & Hwide) Hassign.
  pose proof (assign_extends _ _ _ _ _ _ _ _ Hnew Hassign) as [_ Hext].
  apply assign_Ok in Hassign as (dl & _ & -> & Hlevel & _ & Hcase).
  assert (in_layer layers' node (Z.to_nat level)) as Hnode.
  { destruct Hcase as [(Hlt & layer & Hlayer & _ & ->)|[-> ->]].
    - exists (layer ++ [node]). split.
      + apply list_lookup_insert_eq. by eapply lookup_lt_Some.
      + apply elem_of_app. right. by left.
    - exists [node]. split; [|by left].
      unfold len. rewrite Nat2Z.id. by apply list_lookup_middle. }
  split; [|split].
  - intros n z. rewrite lookup_insert.
    destruct (decide (node = n)) as [<-|Hne].
    + intros [= <-]. done.
    + intros [Hz (layer & Hi & Hn)]%Hlv. split; [done|].
      destruct (Hext _ _ Hi) as [more Hi']. exists (layer ++ more).
      split; [done|]. apply elem_of_app. by left.
  - intros n i (layer' & Hi & Hn).
    assert (in_layer layers n i ∨ (n = node ∧ Z.of_nat i = level)) as [Hold|[-> <-]].
    { destruct Hcase as [(Hlt & layer & Hlayer & _ & ->)|[-> ->]].
      - destruct (decide (i = Z.to_nat level)) as [->|Hne].
        + rewrite list_lookup_insert_eq in Hi by (by eapply lookup_lt_Some).
          injection Hi as <-.
          apply elem_of_app in Hn as [Hn|Hn%list_elem_of_singleton].
          * left. by exists layer.
          * right. split; [done|lia].
        + rewrite list_lookup_insert_ne in Hi by done. left. by exists layer'.
      - apply lookup_app_Some in Hi as [Hi|[Hge Hi]].
        + left. by exists layer'.
        + apply list_lookup_singleton_Some in Hi as [Hi <-].
          apply list_elem_of_singleton in Hn. right. split; [done|].
          unfold len. lia. }
    + rewrite lookup_insert_ne; [by apply Hly|].
      intros <-. apply Hly in Hold. congruence.
    + by rewrite lookup_insert_eq.
  - destruct Hcase as [(Hlt & layer & Hlayer & Hroom & ->)|[-> ->]].
    + apply Forall_insert; [done|]. unfold len in *.
      rewrite length_app. simpl. lia.
    + apply Forall_app. split; [done|]. apply Forall_singleton.
      unfold len. simpl. lia.
Qed.

Lemma assign_respects reduced width node layers levels layers' levels' level :
  wf reduced → levels !! node = None → layering width layers levels →
  respects reduced levels →
  assign reduced width node layers levels = Ok (layers', levels', level) →
  respects reduced levels'.
Proof.
  intros Hwf Hnew (Hlv & _ & _) Hresp
    (dl & Hdl & -> & Hlevel & Hgt & _)%assign_Ok.
  apply dependant_loop_Ok in Hdl as (_ & Hdeps & Hmax).
  assert (dl < level) as Hlt.
  { apply Hgt. destruct Hmax as [->|(d & _ & Hd)]; [unfold len; lia|].
    apply Hlv in Hd as [Hd0 Hd%in_layer_bound]. unfold len. lia. }
  intros u v zv Huv. rewrite lookup_insert.
  destruct (decide (node = v)) as [<-|Hne].
  - intros [= <-].
    destruct (Hdeps u) as (zu & Hu & Hzu); [by apply wf_incoming|].
    exists zu. split; [|lia].
    rewrite lookup_insert_ne; [done|]. intros <-. congruence.
  - intros Hv. destruct (Hresp _ _ _ Huv Hv) as (zu & Hu & Hzu).
    exists zu. split; [|done].
    rewrite lookup_insert_ne; [done|]. intros <-. congruence.
Qed.

End layering_facts.

(** ** The layering loops *)

Section loop_facts.
Context {Node : Type} `{Countable Node}.
Implicit Types (reduced : DirectedGraph.t Node) (node d n : Node).
Implicit Types (layers : list (list Node)) (levels : gmap Node Z).
Implicit Types (width level dl z : Z).

Lemma Sort_loop_extends reduced width nodes layers levels :
  extends layers
    (CoffmanGrahamSorter.Sort_loop reduced width nodes layers levels).2.1
    levels
    (CoffmanGrahamSorter.Sort_loop reduced width nodes layers levels).2.2.
Proof.
  revert layers levels.
  induction nodes as [|node nodes IH]; intros layers levels; simpl.
  { apply extends_refl. }
  destruct (levels !! node) as [z|] eqn:Hnode; [apply IH|].
  destruct (assign _ _ _ _ _) as [[[layers' levels'] level]| | |] eqn:Hassign;
    simpl; try apply extends_refl.
  eapply extends_trans; [|apply IH]. by eapply assign_extends.
Qed.

Lemma Sort_loop_layering reduced width nodes layers levels :
  wf reduced → 1 ≤ width →
  layering width layers levels → respects reduced levels →
  layering width
    (CoffmanGrahamSorter.Sort_loop reduced width nodes layers levels).2.1
    (CoffmanGrahamSorter.Sort_loop reduced width nodes layers levels).2.2
  ∧ respects reduced
      (CoffmanGrahamSorter.Sort_loop reduced width nodes layers levels).2.2.
Proof.
  intros Hwf Hwidth. revert layers levels.
  induction nodes as [|node nodes IH]; intros layers levels Hlay Hresp; simpl.
  { done. }
  destruct (levels !! node) as [z|] eqn:Hnode; [by apply IH|].
  destruct (assign _ _ _ _ _) as [[[layers' levels'] level]| | |] eqn:Hassign;
    simpl; try done.
  apply IH.
  - by eapply assign_layering.
  - by eapply assign_respects.
Qed.

Lemma Sort_loop_assigned reduced width nodes layers levels n :
  (CoffmanGrahamSorter.Sort_loop reduced width nodes layers levels).1 = Ok () →
  n ∈ nodes →
  is_Some
    ((CoffmanGrahamSorter.Sort_loop reduced width nodes layers levels).2.2 !! n).
Proof.
  revert layers levels.
  induction nodes as [|node nodes IH]; intros layers levels; simpl.
  { by intros _ ?%elem_of_nil. }
  destruct (levels !! node) as [z|] eqn:Hnode.
  - intros Hok [->|Hn]%elem_of_cons; [|by apply IH].
    exists z. by apply Sort_loop_extends.
  - destruct (assign _ _ _ _ _) as [[[layers' levels'] level]| | |] eqn:Hassign;
      simpl; try done.
    intros Hok [->|Hn]%elem_of_cons; [|by apply IH].
    exists level. apply Sort_loop_extends.
    apply assign_Ok in Hassign as (_ & _ & -> & _).
    by rewrite lookup_insert_eq.
Qed.

(** The loop returns when the dependants come first. *)
Lemma Sort_loop_total reduced width nodes layers levels :
  dependants_first reduced nodes levels →
  (CoffmanGrahamSorter.Sort_loop reduced width nodes layers levels).1 = Ok ().
Proof.
  revert layers levels.
  induction nodes as [|node nodes IH]; intros layers levels Hfirst; simpl.
  { done. }
  destruct (levels !! node) as [z|] eqn:Hnode.
  - apply IH. intros i n p Hi Hp.
    destruct (Hfirst (S i) n p Hi Hp) as [?|(j & Hj & Hjp)]; [by left|].
    destruct j as [|j]; simpl in Hjp.
    + injection Hjp as <-. left. by exists z.
    + right. exists j. split; [lia|done].
  - destruct (assign_total reduced width node layers levels)
      as [[[layers' levels'] level] Hassign].
    { intros p Hp. destruct (Hfirst 0%nat node p eq_refl Hp)
        as [?|(j & Hj & _)]; [done|lia]. }
    rewrite Hassign. apply IH.
    apply assign_Ok in Hassign as (_ & _ & -> & _).
    intros i n p Hi Hp.
    destruct (Hfirst (S i) n p Hi Hp) as [[zp Hzp]|(j & Hj & Hjp)].
    + left. rewrite lookup_insert. destruct (decide (node = p)); eauto.
    + destruct j as [|j]; simpl in Hjp.
      * injection Hjp as <-. left. rewrite lookup_insert_eq. eauto.
      * right. exists j. split; [lia|done].
Qed.

(** A topological order puts the dependants first. *)
Lemma sorted_dependants_first reduced nodes levels :
  wf reduced → DFSSort reduced = Ok nodes →
  dependants_first reduced nodes levels.
Proof.
  intros Hwf Hsort i n p Hi Hp. right.
  destruct (DFSSort_Ok _ _ Hsort) as (Hnd & Hall & Hord).
  apply wf_incoming in Hp; [|done].
  destruct (Hord p n) as (j & k & Hj & Hk & Hjk); [|done|].
  { apply Hall. by apply (wf_edge reduced p n). }
  assert (k = i) as -> by (by eapply NoDup_lookup).
  by exists j.
Qed.

(** [EventSort_loop] is [Sort_loop] with a running maximum. *)
Lemma EventSort_loop_Sort_loop reduced width nodes layers levels maxLevel :
  ((OptimizedCoffmanGrahamSorter.EventSort_loop
      reduced width nodes layers levels maxLevel).1,
   (OptimizedCoffmanGrahamSorter.EventSort_loop
      reduced width nodes layers levels maxLevel).2.1)
  = CoffmanGrahamSorter.Sort_loop reduced width nodes layers levels.
Proof.
  revert layers levels maxLevel.
  induction nodes as [|node nodes IH]; intros layers levels maxLevel; simpl.
  { done. }
  destruct (levels !! node) as [z|]; [apply IH|].
  destruct (assign _ _ _ _ _) as [[[layers' levels'] level]| | |];
    [apply IH|done..].
Qed.

(** [OrigSort_loop] is [Sort_loop] on nodes without a level. *)
Lemma OrigSort_loop_Sort_loop reduced width nodes layers levels :
  NoDup nodes → (∀ n, n ∈ nodes → levels !! n = None) →
  CoffmanGrahamSorter.OrigSort_loop reduced width nodes layers levels
  = returned (CoffmanGrahamSorter.Sort_loop reduced width nodes layers levels).
Proof.
  revert layers levels.
  induction nodes as [|node nodes IH]; intros layers levels Hnd Hnew; simpl.
  { done. }
  apply NoDup_cons in Hnd as [Hnode Hnd].
  rewrite (Hnew node) by left.
  destruct (assign _ _ _ _ _) as [[[layers' levels'] level]| | |] eqn:Hassign;
    try done.
  apply IH; [done|]. intros n Hn.
  apply assign_Ok in Hassign as (_ & _ & -> & _).
  rewrite lookup_insert_ne by (by intros ->).
  apply Hnew. by right.
Qed.

End loop_facts.

(** ** The sorters *)

Section sorter_facts.
Context {Node : Type} `{Countable Node}.
Implicit Types (g reduced : DirectedGraph.t Node) (node d n u v : Node).
Implicit Types (layers : list (list Node)) (levels : gmap Node Z).
Implicit Types (width level dl z : Z).

Lemma Sort_Sort_loop g (s : CoffmanGrahamSorter.t Node) nodes :
  DFSSort (RemoveTransitives g).1 = Ok nodes →
  (CoffmanGrahamSorter.Sort g s).1
  = returned (CoffmanGrahamSorter.Sort_loop (RemoveTransitives g).1
                (CoffmanGrahamSorter.width s) nodes
                (CoffmanGrahamSorter.layers s) (CoffmanGrahamSorter.levels s))
  ∧ CoffmanGrahamSorter.levels (CoffmanGrahamSorter.Sort g s).2
    = (CoffmanGrahamSorter.Sort_loop (RemoveTransitives g).1
         (CoffmanGrahamSorter.width s) nodes
         (CoffmanGrahamSorter.layers s) (CoffmanGrahamSorter.levels s)).2.2
  ∧ CoffmanGrahamSorter.level (CoffmanGrahamSorter.Sort g s).2
    = CoffmanGrahamSorter.level s
  ∧ ((CoffmanGrahamSorter.Sort g s).1
     = Ok (CoffmanGrahamSorter.layers (CoffmanGrahamSorter.Sort g s).2)
     ∨ CoffmanGrahamSorter.layers (CoffmanGrahamSorter.Sort g s).2
       = CoffmanGrahamSorter.layers s).
Proof.
  intros Hsort. unfold CoffmanGrahamSorter.Sort, DirectedGraph.Copy, returned.
  rewrite Hsort.
  destruct (CoffmanGrahamSorter.Sort_loop _ _ _ _ _) as [[[]| | |] [layers' levels']];
    simpl; repeat split; auto.
Qed.

Lemma Sort_failed g (s : CoffmanGrahamSorter.t Node) :
  (∀ nodes, DFSSort (RemoveTransitives g).1 ≠ Ok nodes) →
  CoffmanGrahamSorter.Sort g s
  = (match DFSSort (RemoveTransitives g).1 with
     | Ok _ => Panic
     | Err e => Err e
     | Panic => Panic
     | OutOfFuel => OutOfFuel
     end, s).
Proof.
  intros Hfail. unfold CoffmanGrahamSorter.Sort, DirectedGraph.Copy.
  destruct (DFSSort _) as [nodes| | |] eqn:Hsort; try done.
  by destruct (Hfail nodes).
Qed.

Lemma EventSort_Sort_loop g (s : OptimizedCoffmanGrahamSorter.t Node) nodes :
  DFSSort (RemoveTransitives g).1 = Ok nodes →
  (OptimizedCoffmanGrahamSorter.EventSort g s).1
  = returned (CoffmanGrahamSorter.Sort_loop (RemoveTransitives g).1
                (OptimizedCoffmanGrahamSorter.width s) nodes
                (OptimizedCoffmanGrahamSorter.layers s)
                (OptimizedCoffmanGrahamSorter.levels s))
  ∧ OptimizedCoffmanGrahamSorter.levels
      (OptimizedCoffmanGrahamSorter.EventSort g s).2
    = (CoffmanGrahamSorter.Sort_loop (RemoveTransitives g).1
         (OptimizedCoffmanGrahamSorter.width s) nodes
         (OptimizedCoffmanGrahamSorter.layers s)
         (OptimizedCoffmanGrahamSorter.levels s)).2.2
  ∧ ((OptimizedCoffmanGrahamSorter.EventSort g s).1
     = Ok (OptimizedCoffmanGrahamSorter.layers
             (OptimizedCoffmanGrahamSorter.EventSort g s).2)
     ∨ OptimizedCoffmanGrahamSorter.layers
         (OptimizedCoffmanGrahamSorter.EventSort g s).2
       = OptimizedCoffmanGrahamSorter.layers s).
Proof.
  intros Hsort.
  unfold OptimizedCoffmanGrahamSorter.EventSort, DirectedGraph.Copy, returned.
  rewrite Hsort.
  rewrite <- (EventSort_loop_Sort_loop _ _ _ _ _ (-1)).
  destruct (OptimizedCoffmanGrahamSorter.EventSort_loop _ _ _ _ _ _)
    as [[[]| | |] [[layers' levels'] maxLevel]];
    simpl; repeat split; auto.
Qed.

Lemma EventSort_failed g (s : OptimizedCoffmanGrahamSorter.t Node) :
  (∀ nodes, DFSSort (RemoveTransitives g).1 ≠ Ok nodes) →
  OptimizedCoffmanGrahamSorter.EventSort g s
  = (match DFSSort (RemoveTransitives g).1 with
     | Ok _ => Panic
     | Err e => Err e
     | Panic => Panic
     | OutOfFuel => OutOfFuel
     end, s).
Proof.
  intros Hfail. unfold OptimizedCoffmanGrahamSorter.EventSort, DirectedGraph.Copy.
  destruct (DFSSort _) as [nodes| | |] eqn:Hsort; try done.
  by destruct (Hfail nodes).
Qed.

Lemma reduced_wf g : wf g → wf (RemoveTransitives g).1.
Proof. intros Hwf. by destruct (RemoveTransitives_reduces g Hwf) as (_ & ? & _). Qed.

Lemma reduced_acyclic g : wf g → acyclic g → acyclic (RemoveTransitives g).1.
Proof.
  intros Hwf Hacyc. destruct (RemoveTransitives_reduces g Hwf) as (Hsub & _).
  by eapply subgraph_acyclic.
Qed.

(** On a directed acyclic graph the loop of [Sort] returns, whatever the
    sorter holds. *)
Lemma Sort_loop_reduced_total g width layers levels :
  wf g → acyclic g →
  ∃ nodes, DFSSort (RemoveTransitives g).1 = Ok nodes
    ∧ (CoffmanGrahamSorter.Sort_loop (RemoveTransitives g).1 width nodes
         layers levels).1 = Ok ().
Proof.
  intros Hwf Hacyc.
  destruct (DFSSort_acyclic (RemoveTransitives g).1) as [nodes Hsort];
    [by apply reduced_wf|by apply reduced_acyclic|].
  exists nodes. split; [done|].
  apply Sort_loop_total, sorted_dependants_first; [by apply reduced_wf|done].
Qed.

Lemma Sort_succeeds g (s : CoffmanGrahamSorter.t Node) :
  wf g → acyclic g → ∃ layers, (CoffmanGrahamSorter.Sort g s).1 = Ok layers.
Proof.
  intros Hwf Hacyc.
  destruct (Sort_loop_reduced_total g (CoffmanGrahamSorter.width s)
              (CoffmanGrahamSorter.layers s) (CoffmanGrahamSorter.levels s)
              Hwf Hacyc) as (nodes & Hsort & Hloop).
  destruct (Sort_Sort_loop g s nodes Hsort) as (-> & _).
  unfold returned. rewrite Hloop. eauto.
Qed.

Lemma EventSort_succeeds g (s : OptimizedCoffmanGrahamSorter.t Node) :
  wf g → acyclic g →
  ∃ layers, (OptimizedCoffmanGrahamSorter.EventSort g s).1 = Ok layers.
Proof.
  intros Hwf Hacyc.
  destruct (Sort_loop_reduced_total g (OptimizedCoffmanGrahamSorter.width s)
              (OptimizedCoffmanGrahamSorter.layers s)
              (OptimizedCoffmanGrahamSorter.levels s)
              Hwf Hacyc) as (nodes & Hsort & Hloop).
  destruct (EventSort_Sort_loop g s nodes Hsort) as (-> & _).
  unfold returned. rewrite Hloop. eauto.
Qed.

Lemma Sort_extends g (s : CoffmanGrahamSorter.t Node) :
  (∀ n z, CoffmanGrahamSorter.levels s !! n = Some z →
     CoffmanGrahamSorter.levels (CoffmanGrahamSorter.Sort g s).2 !! n = Some z)
  ∧ (∀ n (i : nat), in_layer (CoffmanGrahamSorter.layers s) n i →
       in_layer (CoffmanGrahamSorter.layers (CoffmanGrahamSorter.Sort g s).2) n i).
Proof.
  destruct (DFSSort (RemoveTransitives g).1) as [nodes| | |] eqn:Hsort.
  2-4: by rewrite Sort_failed by (intros ?; by rewrite Hsort).
  destruct (Sort_Sort_loop g s nodes Hsort) as (Hres & Hlevels & _ & Hlayers).
  pose proof (Sort_loop_extends (RemoveTransitives g).1
    (CoffmanGrahamSorter.width s) nodes (CoffmanGrahamSorter.layers s)
    (CoffmanGrahamSorter.levels s)) as [Hlv Hly].
  split.
  - intros n z Hn. rewrite Hlevels. by apply Hlv.
  - intros n i Hin. destruct Hlayers as [Hok| ->]; [|done].
    rewrite Hres in Hok. unfold returned in Hok.
    destruct (CoffmanGrahamSorter.Sort_loop _ _ _ _ _) as [[[]| | |] [layers' levels']];
      simpl in *; try done.
    injection Hok as <-. destruct Hin as (layer & Hi & Hn).
    destruct (Hly _ _ Hi) as [more Hi']. exists (layer ++ more).
    split; [done|]. apply elem_of_app. by left.
Qed.

Lemma EventSort_extends g (s : OptimizedCoffmanGrahamSorter.t Node) :
  (∀ n z, OptimizedCoffmanGrahamSorter.levels s !! n = Some z →
     OptimizedCoffmanGrahamSorter.levels
       (OptimizedCoffmanGrahamSorter.EventSort g s).2 !! n = Some z)
  ∧ (∀ n (i : nat), in_layer (OptimizedCoffmanGrahamSorter.layers s) n i →
       in_layer (OptimizedCoffmanGrahamSorter.layers
                   (OptimizedCoffmanGrahamSorter.EventSort g s).2) n i).
Proof.
  destruct (DFSSort (RemoveTransitives g).1) as [nodes| | |] eqn:Hsort.
  2-4: by rewrite EventSort_failed by (intros ?; by rewrite Hsort).
  destruct (EventSort_Sort_loop g s nodes Hsort) as (Hres & Hlevels & Hlayers).
  pose proof (Sort_loop_extends (RemoveTransitives g).1
    (OptimizedCoffmanGrahamSorter.width s) nodes
    (OptimizedCoffmanGrahamSorter.layers s)
    (OptimizedCoffmanGrahamSorter.levels s)) as [Hlv Hly].
  split.
  - intros n z Hn. rewrite Hlevels. by apply Hlv.
  - intros n i Hin. destruct Hlayers as [Hok| ->]; [|done].
    rewrite Hres in Hok. unfold returned in Hok.
    destruct (CoffmanGrahamSorter.Sort_loop _ _ _ _ _) as [[[]| | |] [layers' levels']];
      simpl in *; try done.
    injection Hok as <-. destruct Hin as (layer & Hi & Hn).
    destruct (Hly _ _ Hi) as [more Hi']. exists (layer ++ more).
    split; [done|]. apply elem_of_app. by left.
Qed.

End sorter_facts.

(** * The stated properties *)

Lemma scenario_wf : wf scenario.
Proof. by_compute. Qed.

Lemma scenario_acyclic : acyclic scenario.
Proof. apply (ranked_acyclic id). by_compute. Qed.

Example scenario_sorted : DFSSort scenario = Ok [4; 1; 2; 3]%nat.
Proof. reflexivity. Qed.

Example scenario_reduced :
  DirectedGraph.EdgeExists (RemoveTransitives scenario).1 1%nat 3%nat = false
  ∧ DirectedGraph.EdgeExists (RemoveTransitives scenario).1 1%nat 2%nat = true
  ∧ DirectedGraph.EdgeExists (RemoveTransitives scenario).1 2%nat 3%nat = true.
Proof. by vm_compute. Qed.

Example scenario_layers :
  CoffmanGrahamSort scenario 2 = Ok [[4; 1]; [2]; [3]]%nat.
Proof. by vm_compute. Qed.

Example two_cycle_sort : DFSSort two_cycle = Err ErrCyclicGraph.
Proof. reflexivity. Qed.

(** A sorter sorts [chain], the graph grows, the sorter sorts again: A and
    B stay where they were, C and D are placed around them. *)
Example grown_layers :
  let s1 := (OptimizedCoffmanGrahamSorter.EventSort chain
               (OptimizedCoffmanGrahamSorter.NewOptimizedCoffmanGrahamSorter 2)).2 in
  let r := OptimizedCoffmanGrahamSorter.EventSort grown s1 in
  OptimizedCoffmanGrahamSorter.layers s1 = [[1]; [2]]%nat
  ∧ r.1 = Ok [[1; 4]; [2]; [3]]%nat
  ∧ OptimizedCoffmanGrahamSorter.level r.2 = 2.
Proof. by vm_compute. Qed.

(** The event graph stores "A before B" as the edge from B to A. *)
Example event_edge :
  let g := EventGraph.AddEdge EventGraph.NewEventGraph 1%nat 2%nat in
  EventGraph.EdgeExists g 1%nat 2%nat = true
  ∧ EventGraph.EdgeExists g 2%nat 1%nat = false
  ∧ DirectedGraph.OutgoingEdges (EventGraph.DirectedGraph_of g) 2%nat = [1%nat].
Proof. by vm_compute. Qed.

Section properties.
Context {Node : Type} `{Countable Node}.
Implicit Types (g : DirectedGraph.t Node) (n u v x a b : Node).

(** C1.  On a directed acyclic graph [DFSSort] returns a list that is a
    permutation of the nodes of the graph and in which, for every edge
    (u,v), u stands before v. *)
Theorem DFSSort_topological g :
  wf g → acyclic g →
  ∃ l, DFSSort g = Ok l
       ∧ l ≡ₚ DirectedGraph.Nodes g
       ∧ ∀ u v, edge g u v → before l u v.
Proof.
  intros Hwf Hacyc. destruct (DFSSort_acyclic g Hwf Hacyc) as [l Hsort].
  exists l. split; [done|]. split; [by apply DFSSort_Ok_nodes|].
  destruct (DFSSort_Ok g l Hsort) as (_ & Hall & Hord).
  intros u v Huv. apply Hord; [|done]. apply Hall. by apply (wf_edge g u v).
Qed.

(** C2.  On a directed acyclic graph and for a width of at least one,
    [CoffmanGrahamSort] returns layers; no layer has more than [width]
    nodes; a node is in one layer only; and for every edge (u,v) of the
    reduced graph the layer of u has a smaller index than the layer of
    v. *)
Theorem CoffmanGrahamSort_layered g (width : Z) :
  wf g → acyclic g → 1 ≤ width →
  ∃ layers,
    CoffmanGrahamSort g width = Ok layers
    ∧ Forall (λ layer, len layer ≤ width) layers
    ∧ (∀ n (i j : nat), in_layer layers n i → in_layer layers n j → i = j)
    ∧ ∀ u v, edge (RemoveTransitives g).1 u v →
        ∃ i j : nat, in_layer layers u i ∧ in_layer layers v j ∧ (i < j)%nat.
Proof.
  intros Hwf Hacyc Hwidth.
  destruct (Sort_loop_reduced_total g width [] ∅ Hwf Hacyc)
    as (nodes & Hsort & Hloop).
  pose proof (reduced_wf g Hwf) as Hrwf.
  destruct (Sort_loop_layering (RemoveTransitives g).1 width nodes [] ∅
              Hrwf Hwidth (layering_empty width) (respects_empty _))
    as [(Hlv & Hly & Hwide) Hresp].
  pose proof (Sort_loop_assigned (RemoveTransitives g).1 width nodes [] ∅)
    as Hassigned.
  unfold CoffmanGrahamSort.
  destruct (Sort_Sort_loop g (CoffmanGrahamSorter.NewCoffmanGrahamSorter width)
              nodes Hsort) as (-> & _).
  simpl. unfold returned.
  destruct (CoffmanGrahamSorter.Sort_loop _ _ _ _ _) as [o [layers levels]].
  simpl in *. subst o. exists layers. split; [done|]. split; [done|]. split.
  - intros n i j Hi%Hly Hj%Hly. rewrite Hi in Hj. injection Hj. lia.
  - intros u v Huv.
    destruct (Hassigned v eq_refl) as [zv Hv].
    { destruct (DFSSort_Ok _ _ Hsort) as (_ & Hall & _).
      apply Hall. by apply (wf_edge _ u v). }
    destruct (Hresp _ _ _ Huv Hv) as (zu & Hu & Hlt).
    destruct (Hlv _ _ Hu) as [Hu0 Hui]. destruct (Hlv _ _ Hv) as [Hv0 Hvj].
    exists (Z.to_nat zu), (Z.to_nat zv). split; [done|]. split; [done|]. lia.
Qed.

(** C3.  On a graph with a cycle (a node [x] that reaches itself; in a
    well-formed graph [x] is a node) [DFSSort] fails with the
    cyclic-graph error, and [Sort] and [EventSort] return that error,
    whatever the sorter holds. *)
Theorem cyclic_graph_error g x :
  wf g → tc (edge g) x x →
  DFSSort g = Err ErrCyclicGraph
  ∧ (∀ s, (CoffmanGrahamSorter.Sort g s).1 = Err ErrCyclicGraph)
  ∧ (∀ s, (OptimizedCoffmanGrahamSorter.EventSort g s).1 = Err ErrCyclicGraph).
Proof.
  intros Hwf Hcycle.
  assert (DFSSort g = Err ErrCyclicGraph) as Hsort.
  { apply DFSSort_cyclic; [done|]. intros Hacyc. exact (Hacyc x Hcycle). }
  assert ((RemoveTransitives g).1 = g) as Hsame.
  { apply RemoveTransitives_failed. unfold RemoveTransitives. by rewrite Hsort. }
  split; [done|]. split; intros s.
  - rewrite Sort_failed; rewrite Hsame, Hsort; done.
  - rewrite EventSort_failed; rewrite Hsame, Hsort; done.
Qed.

(** C4.  A sorter has sorted a graph [g]; the graph is changed to [g']
    and the sorter sorts again.  Every node that had a level after the
    first call has the same level after the second, and is a member of
    the layer with the same index.  This holds for each [g'], so also
    for one that extends [g], and for both sorters that keep their
    state. *)
Theorem assigned_levels_stable g g' :
  (∀ (s : OptimizedCoffmanGrahamSorter.t Node),
     let s1 := (OptimizedCoffmanGrahamSorter.EventSort g s).2 in
     let s2 := (OptimizedCoffmanGrahamSorter.EventSort g' s1).2 in
     (∀ n z, OptimizedCoffmanGrahamSorter.levels s1 !! n = Some z →
             OptimizedCoffmanGrahamSorter.levels s2 !! n = Some z)
     ∧ (∀ n (i : nat),
          in_layer (OptimizedCoffmanGrahamSorter.layers s1) n i →
          in_layer (OptimizedCoffmanGrahamSorter.layers s2) n i))
  ∧ (∀ (s : CoffmanGrahamSorter.t Node),
       let s1 := (CoffmanGrahamSorter.Sort g s).2 in
       let s2 := (CoffmanGrahamSorter.Sort g' s1).2 in
       (∀ n z, CoffmanGrahamSorter.levels s1 !! n = Some z →
               CoffmanGrahamSorter.levels s2 !! n = Some z)
       ∧ (∀ n (i : nat),
            in_layer (CoffmanGrahamSorter.layers s1) n i →
            in_layer (CoffmanGrahamSorter.layers s2) n i)).
Proof.
  split; intros s s1 s2.
  - apply EventSort_extends.
  - apply Sort_extends.
Qed.

(** C5.  [RemoveTransitives] keeps the reachability relation: [a]
    reaches [b] in the graph if and only if [a] reaches [b] in the
    reduced graph. *)
Theorem RemoveTransitives_reachability g a b :
  wf g →
  rtc (edge g) a b ↔ rtc (edge (RemoveTransitives g).1) a b.
Proof.
  intros Hwf.
  destruct (RemoveTransitives_reduces g Hwf) as ([_ Hsub] & _ & Hreach).
  split; [by apply Hreach|]. by apply rtc_subrel.
Qed.

(** C6.  After [EventGraph.AddEdge a b] the event graph answers
    [EdgeExists a b] with true, and the directed graph it wraps holds the
    edge from [b] to [a]. *)
Theorem EventGraph_AddEdge_reversed (g : EventGraph.t Node) a b :
  EventGraph.EdgeExists (EventGraph.AddEdge g a b) a b = true
  ∧ DirectedGraph.EdgeExists
      (EventGraph.DirectedGraph_of (EventGraph.AddEdge g a b)) b a = true.
Proof.
  assert (∀ (d : DirectedGraph.t Node) u v,
    DirectedGraph.EdgeExists (DirectedGraph.AddEdge d u v) u v = true) as Hadd.
  { intros d u v. unfold DirectedGraph.AddEdge.
    set (d1 := DirectedGraph.AddNode (DirectedGraph.AddNode d u) v).
    destruct (DirectedGraph.EdgeExists d1 u v) eqn:Hin; [done|].
    unfold DirectedGraph.EdgeExists. apply bool_decide_eq_true.
    unfold DirectedGraph.OutgoingEdges at 1. simpl.
    rewrite lookup_insert_eq. simpl. apply elem_of_app. right. by left. }
  split; apply Hadd.
Qed.

(** C7.  On a directed acyclic graph neither [Sort] nor [EventSort]
    returns [ErrDependencyOrder], whatever the sorter holds: the loop
    meets every dependant of a node before the node, so the dependant
    has a level. *)
Theorem dependency_order_unreachable g :
  wf g → acyclic g →
  (∀ s, (CoffmanGrahamSorter.Sort g s).1 ≠ Err ErrDependencyOrder)
  ∧ (∀ s, (OptimizedCoffmanGrahamSorter.EventSort g s).1
          ≠ Err ErrDependencyOrder).
Proof.
  intros Hwf Hacyc. split; intros s.
  - destruct (Sort_succeeds g s Hwf Hacyc) as [layers ->]. done.
  - destruct (EventSort_succeeds g s Hwf Hacyc) as [layers ->]. done.
Qed.

(** C9.  On a directed acyclic graph a second [RemoveTransitives]
    changes nothing: the graph after two reductions is the graph after
    one, and so is its edge set. *)
Theorem RemoveTransitives_idempotent g :
  wf g → acyclic g →
  (RemoveTransitives (RemoveTransitives g).1).1 = (RemoveTransitives g).1
  ∧ ∀ u v,
      DirectedGraph.EdgeExists (RemoveTransitives (RemoveTransitives g).1).1 u v
      = DirectedGraph.EdgeExists (RemoveTransitives g).1 u v.
Proof.
  intros Hwf _. pose proof (RemoveTransitives_twice g Hwf) as Htwice.
  split; [done|]. intros u v. by rewrite Htwice.
Qed.

(** C10.  For new sorters on one graph and one width, [Sort],
    [OrigSort] and [EventSort] return the same layers or the same
    error. *)
Theorem layering_sorts_agree g (width : Z) :
  (CoffmanGrahamSorter.Sort g
     (CoffmanGrahamSorter.NewCoffmanGrahamSorter width)).1
  = CoffmanGrahamSorter.OrigSort g
      (CoffmanGrahamSorter.NewCoffmanGrahamSorter width)
  ∧ (OptimizedCoffmanGrahamSorter.EventSort g
       (OptimizedCoffmanGrahamSorter.NewOptimizedCoffmanGrahamSorter width)).1
    = CoffmanGrahamSorter.OrigSort g
        (CoffmanGrahamSorter.NewCoffmanGrahamSorter width).
Proof.
  destruct (DFSSort (RemoveTransitives g).1) as [nodes| | |] eqn:Hsort.
  2-4: rewrite Sort_failed, EventSort_failed by (intros ?; by rewrite Hsort);
    unfold CoffmanGrahamSorter.OrigSort, DirectedGraph.Copy;
    by rewrite Hsort.
  destruct (Sort_Sort_loop g
    (CoffmanGrahamSorter.NewCoffmanGrahamSorter width) nodes Hsort) as (-> & _).
  destruct (EventSort_Sort_loop g
    (OptimizedCoffmanGrahamSorter.NewOptimizedCoffmanGrahamSorter width)
    nodes Hsort) as (-> & _).
  unfold CoffmanGrahamSorter.OrigSort, DirectedGraph.Copy. rewrite Hsort.
  simpl. rewrite OrigSort_loop_Sort_loop; [done| |done].
  by destruct (DFSSort_Ok _ _ Hsort) as (? & _).
Qed.

(** [Sort] writes back to [level] what it read from it. *)
Lemma Sort_level_unchanged g (s : CoffmanGrahamSorter.t Node) :
  CoffmanGrahamSorter.level (CoffmanGrahamSorter.Sort g s).2
  = CoffmanGrahamSorter.level s.
Proof.
  unfold CoffmanGrahamSorter.Sort.
  destruct (DFSSort _); try done.
  by destruct (CoffmanGrahamSorter.Sort_loop _ _ _ _ _) as [[] [layers levels]].
Qed.

End properties.

(** C8.  [Sort] on the graph with the one edge A→B and width 1: B is the
    last node of the loop and goes to the layer with index 1, while the
    field [level] of the sorter is 0 after the call, as it was before.
    [EventSort] leaves 1 in its field. *)
Theorem Sort_level_stale :
  let r := CoffmanGrahamSorter.Sort chain
             (CoffmanGrahamSorter.NewCoffmanGrahamSorter 1) in
  DFSSort (RemoveTransitives chain).1 = Ok [1; 2]%nat
  ∧ r.1 = Ok [[1]; [2]]%nat
  ∧ CoffmanGrahamSorter.levels r.2 !! 2%nat = Some 1
  ∧ CoffmanGrahamSorter.level r.2 = 0
  ∧ OptimizedCoffmanGrahamSorter.level
      (OptimizedCoffmanGrahamSorter.EventSort chain
         (OptimizedCoffmanGrahamSorter.NewOptimizedCoffmanGrahamSorter 1)).2 = 1.
Proof. by vm_compute. Qed.

Lemma DFSSort_topological_witness :
  ∃ l, DFSSort scenario = Ok l
       ∧ l ≡ₚ DirectedGraph.Nodes scenario
       ∧ ∀ u v, edge scenario u v → before l u v.
Proof.
  apply (DFSSort_topological scenario).
  - by_compute.
  - apply (ranked_acyclic id). by_compute.
Defined.

Lemma CoffmanGrahamSort_layered_witness :
  ∃ layers,
    CoffmanGrahamSort scenario 2 = Ok layers
    ∧ Forall (λ layer, len layer ≤ 2) layers
    ∧ (∀ n (i j : nat), in_layer layers n i → in_layer layers n j → i = j)
    ∧ ∀ u v, edge (RemoveTransitives scenario).1 u v →
        ∃ i j : nat, in_layer layers u i ∧ in_layer layers v j ∧ (i < j)%nat.
Proof.
  apply (CoffmanGrahamSort_layered scenario 2).
  - by_compute.
  - apply (ranked_acyclic id). by_compute.
  - lia.
Defined.

Lemma cyclic_graph_error_witness :
  DFSSort two_cycle = Err ErrCyclicGraph
  ∧ (∀ s, (CoffmanGrahamSorter.Sort two_cycle s).1 = Err ErrCyclicGraph)
  ∧ (∀ s, (OptimizedCoffmanGrahamSorter.EventSort two_cycle s).1
          = Err ErrCyclicGraph).
Proof.
  apply (cyclic_graph_error two_cycle 1%nat).
  - by_compute.
  - apply (tc_l _ _ 2%nat); [|apply tc_once]; by_compute.
Defined.

Lemma RemoveTransitives_reachability_witness :
  rtc (edge scenario) 1%nat 3%nat
  ↔ rtc (edge (RemoveTransitives scenario).1) 1%nat 3%nat.
Proof.
  apply (RemoveTransitives_reachability scenario). by_compute.
Defined.

Lemma dependency_order_unreachable_witness :
  (∀ s, (CoffmanGrahamSorter.Sort scenario s).1 ≠ Err ErrDependencyOrder)
  ∧ (∀ s, (OptimizedCoffmanGrahamSorter.EventSort scenario s).1
          ≠ Err ErrDependencyOrder).
Proof.
  apply (dependency_order_unreachable scenario).
  - by_compute.
  - apply (ranked_acyclic id). by_compute.
Defined.

Lemma RemoveTransitives_idempotent_witness :
  (RemoveTransitives (RemoveTransitives scenario).1).1
  = (RemoveTransitives scenario).1
  ∧ ∀ u v,
      DirectedGraph.EdgeExists
        (RemoveTransitives (RemoveTransitives scenario).1).1 u v
      = DirectedGraph.EdgeExists (RemoveTransitives scenario).1 u v.
Proof.
  apply (RemoveTransitives_idempotent scenario).
  - by_compute.
  - apply (ranked_acyclic id). by_compute.
Defined.

(** * Further properties of the code *)

(** ** More on the depth-first search *)

Section dfs_more.
Context {Node : Type} `{Countable Node}.
Implicit Types (g : DirectedGraph.t Node) (s : DFSSorter.t Node).
Implicit Types (m : gmap Node bool) (n x y : Node).

(** A returning visit lists only nodes that its node reaches. *)
Lemma visit_reachable g fuel n s s' :
  DFSSorter.visit g fuel n s = Ok s' →
  ∃ l, DFSSorter.sorted s' = DFSSorter.sorted s ++ l
       ∧ ∀ x, x ∈ l → rtc (edge g) n x.
Proof.
  revert n s s'. induction fuel as [|fuel IH]; intros n s s'; simpl; [done|].
  destruct (DFSSorter.marked (DFSSorter.discovered s) n).
  { intros [= <-]. exists []. split; [by rewrite app_nil_r|].
    by intros x ?%elem_of_nil. }
  destruct (DFSSorter.marked (DFSSorter.visiting s) n); [done|].
  set (s1 := DFSSorter.mk _ _ _).
  destruct (for_each _ _ s1) as [s2| | |] eqn:Hloop; try done.
  intros [= <-]; simpl.
  assert (∃ l, DFSSorter.sorted s2 = DFSSorter.sorted s1 ++ l
               ∧ ∀ x, x ∈ l → rtc (edge g) n x) as (l & E & Hl).
  { eapply (for_each_Ok_inv _
      (λ t, ∃ l, DFSSorter.sorted t = DFSSorter.sorted s1 ++ l
                 ∧ ∀ x, x ∈ l → rtc (edge g) n x)); [| |exact Hloop].
    - intros y t t' Hy (l1 & E1 & Hl1) Hv.
      destruct (IH _ _ _ Hv) as (l2 & E2 & Hl2).
      exists (l1 ++ l2). split; [by rewrite E2, E1, <- app_assoc|].
      intros x [Hx|Hx]%elem_of_app; [by apply Hl1|].
      eapply rtc_l; [exact Hy|by apply Hl2].
    - exists []. split; [by rewrite app_nil_r|]. by intros x ?%elem_of_nil. }
  exists (l ++ [n]). split; [by rewrite E, <- app_assoc|].
  intros x [Hx|Hx%list_elem_of_singleton]%elem_of_app; [by apply Hl|by subst].
Qed.

Lemma visit_discovers g fuel n s s' :
  DFSSorter.visit g fuel n s = Ok s' →
  DFSSorter.marked (DFSSorter.discovered s') n = true.
Proof.
  destruct fuel as [|fuel]; simpl; [done|].
  destruct (DFSSorter.marked (DFSSorter.discovered s) n) eqn:HD.
  { by intros [= <-]. }
  destruct (DFSSorter.marked (DFSSorter.visiting s) n); [done|].
  destruct (for_each _ _ _) as [s2| | |]; try done.
  intros [= <-]; simpl. rewrite marked_insert. by destruct (decide (n = n)).
Qed.

(** Permanent marks are never taken back. *)
Lemma visit_discovered_mono g fuel n s s' x :
  DFSSorter.visit g fuel n s = Ok s' →
  DFSSorter.marked (DFSSorter.discovered s) x = true →
  DFSSorter.marked (DFSSorter.discovered s') x = true.
Proof.
  revert n s s'. induction fuel as [|fuel IH]; intros n s s'; simpl; [done|].
  destruct (DFSSorter.marked (DFSSorter.discovered s) n).
  { by intros [= <-]. }
  destruct (DFSSorter.marked (DFSSorter.visiting s) n); [done|].
  set (s1 := DFSSorter.mk _ _ _).
  destruct (for_each _ _ s1) as [s2| | |] eqn:Hloop; try done.
  intros [= <-] Hx; simpl. rewrite marked_insert.
  destruct (decide (n = x)); [done|].
  eapply (for_each_Ok_inv _
    (λ t, DFSSorter.marked (DFSSorter.discovered t) x = true));
    [| |exact Hloop]; [|done].
  intros y t t' _ Ht Hv. by eapply IH.
Qed.

Lemma for_each_cons {A S : Type} (body : A → S → outcome S) a (xs : list A)
    (st : S) :
  for_each body (a :: xs) st
  = match body a st with
    | Ok st' => for_each body xs st'
    | Err e => Err e
    | Panic => Panic
    | OutOfFuel => OutOfFuel
    end.
Proof. done. Qed.

Lemma visit_leaf g fuel n s :
  DirectedGraph.OutgoingEdges g n = [] →
  DFSSorter.marked (DFSSorter.discovered s) n = false →
  DFSSorter.marked (DFSSorter.visiting s) n = false →
  DFSSorter.visit g (S fuel) n s
  = Ok {| DFSSorter.sorted := DFSSorter.sorted s ++ [n];
          DFSSorter.visiting := delete n (<[n := true]> (DFSSorter.visiting s));
          DFSSorter.discovered := <[n := true]> (DFSSorter.discovered s) |}.
Proof. intros Hout HD HV. simpl. by rewrite HD, HV, Hout. Qed.

(** On a graph without edges every visit of a fresh node appends it. *)
Lemma for_each_visit_edgeless g fuel xs s :
  (∀ n, DirectedGraph.OutgoingEdges g n = []) →
  NoDup xs →
  (∀ x, x ∈ xs → DFSSorter.marked (DFSSorter.discovered s) x = false
                 ∧ DFSSorter.marked (DFSSorter.visiting s) x = false) →
  ∃ s', for_each (DFSSorter.visit g (S fuel)) xs s = Ok s'
        ∧ DFSSorter.sorted s' = DFSSorter.sorted s ++ xs.
Proof.
  intros Hedgeless. revert s.
  induction xs as [|x xs IH]; intros s Hnd Hfresh.
  { exists s. split; [done|]. by rewrite app_nil_r. }
  apply NoDup_cons in Hnd as [Hx Hnd].
  destruct (Hfresh x) as [HD HV]; [by left|].
  rewrite for_each_cons, (visit_leaf g fuel x s (Hedgeless x) HD HV).
  set (s1 := DFSSorter.mk _ _ _).
  destruct (IH s1 Hnd) as (s' & -> & E).
  { intros y Hy. subst s1; simpl.
    rewrite marked_insert, marked_delete, marked_insert.
    destruct (decide (x = y)) as [->|Hne]; [done|].
    apply Hfresh. by right. }
  exists s'. split; [done|]. rewrite E. subst s1; simpl.
  by rewrite <- app_assoc.
Qed.

End dfs_more.

(** ** More on one placement *)

Section placement_more.
Context {Node : Type} `{Countable Node}.
Implicit Types (reduced : DirectedGraph.t Node) (node d n : Node).
Implicit Types (layers : list (list Node)) (levels : gmap Node Z).
Implicit Types (width level dl z : Z).

Lemma dependant_loop_missing levels deps dl0 d :
  d ∈ deps → levels !! d = None →
  dependant_loop levels deps dl0 = Err ErrDependencyOrder.
Proof.
  revert dl0. induction deps as [|d' deps IH]; intros dl0 Hd Hnone.
  { by apply elem_of_nil in Hd. }
  simpl. destruct (levels !! d') as [z|] eqn:Hd'; [|done].
  apply IH; [|done]. apply elem_of_cons in Hd as [->|Hd]; [congruence|done].
Qed.



(** The search for a layer with room passes full layers only. *)
Lemma unfilled_loop_full layers width fuel i r :
  0 ≤ i → len layers - i ≤ Z.of_nat fuel →
  unfilled_loop layers width fuel i = Ok r →
  ∀ j layer, i ≤ j → j < (if r =? -1 then len layers else r) →
    layers !! Z.to_nat j = Some layer → width ≤ len layer.
Proof.
  revert i. induction fuel as [|fuel IH]; intros i Hi Hfuel.
  - simpl. case_ltb; [lia|]. intros [= <-] j layer Hj1 Hj2. simpl in Hj2. lia.
  - cbn [unfilled_loop]. case_ltb.
    2:{ intros [= <-] j layer Hj1 Hj2. simpl in Hj2. lia. }
    destruct (index_in_range layers i) as [layer0 Hlayer0]; [lia|].
    rewrite Hlayer0. apply index_Some in Hlayer0 as [_ Hlayer0].
    case_ltb.
    + intros [= <-] j layer Hj1 Hj2.
      assert ((i =? -1) = false) as E by lia. rewrite E in Hj2. lia.
    + intros Hrest j layer Hj1 Hj2 Hj.
      destruct (decide (j = i)) as [->|Hne].
      * rewrite Hlayer0 in Hj. injection Hj as <-. done.
      * eapply (IH (i + 1)); [lia|lia|exact Hrest| |exact Hj2|exact Hj]. lia.
Qed.

(** First fit: every layer between the dependants and the chosen layer
    is full. *)
Lemma assign_first_fit reduced width node layers levels layers' levels' level dl :
  assign reduced width node layers levels = Ok (layers', levels', level) →
  dependant_loop levels (DirectedGraph.IncomingEdges reduced node) (-1) = Ok dl →
  ∀ (j : nat) layer, dl < Z.of_nat j < level → layers !! j = Some layer →
    width ≤ len layer.
Proof.
  unfold assign. intros Hassign Hdl. rewrite Hdl in Hassign.
  destruct (dependant_loop_Ok _ _ _ _ Hdl) as (Hge & _ & _).
  revert Hassign. case_ltb.
  - destruct (unfilled_loop_Ok layers width (S (length layers)) (dl + 1))
      as (r & Hr & Hcase); [unfold len in *; lia..|].
    rewrite Hr.
    pose proof (unfilled_loop_full layers width (S (length layers)) (dl + 1) r
                  ltac:(unfold len in *; lia) ltac:(unfold len in *; lia) Hr) as Hfull.
    destruct Hcase as [->|(Hrange & _)].
    + assert (len (layers ++ [[]]) - 1 = len layers) as Hlen
        by (unfold len; rewrite length_app; simpl; lia).
      cbv zeta. simpl. rewrite !Hlen.
      destruct (index _ _); [|done].
      intros [= <- <- <-] j layer Hj Hlayer.
      eapply (Hfull (Z.of_nat j)); [lia|simpl; lia|by rewrite Nat2Z.id].
    + assert ((r =? -1) = false) as E by lia.
      cbv zeta. rewrite E in *.
      destruct (index _ _); [|done].
      intros [= <- <- <-] j layer Hj Hlayer.
      eapply (Hfull (Z.of_nat j)); [lia|lia|by rewrite Nat2Z.id].
  - assert (len (layers ++ [[]]) - 1 = len layers) as Hlen
      by (unfold len; rewrite length_app; simpl; lia).
    cbv zeta. simpl. rewrite !Hlen.
    destruct (index _ _); [|done].
    intros [= <- <- <-] j layer Hj Hlayer.
    apply lookup_lt_Some in Hlayer. unfold len in *. lia.
Qed.

(** With a width of zero or less no layer has room: every placement
    opens a layer. *)
Lemma assign_no_width reduced width node layers levels layers' levels' level :
  width ≤ 0 →
  assign reduced width node layers levels = Ok (layers', levels', level) →
  layers' = layers ++ [[node]].
Proof.
  intros Hwidth (dl & _ & _ & _ & _ & Hcase)%assign_Ok.
  destruct Hcase as [(_ & layer & _ & Hroom & _)|[_ ->]]; [|done].
  unfold len in Hroom. lia.
Qed.

(** A placement adds its node to the members of the layers and nothing
    else. *)
Lemma assign_concat reduced width node layers levels layers' levels' level :
  assign reduced width node layers levels = Ok (layers', levels', level) →
  concat layers' ≡ₚ concat layers ++ [node].
Proof.
  intros (dl & _ & _ & Hlevel & _ & Hcase)%assign_Ok.
  destruct Hcase as [(Hlt & layer & Hlayer & _ & ->)|[_ ->]].
  - rewrite insert_take_drop by (by eapply lookup_lt_Some).
    rewrite <- (take_drop_middle layers _ _ Hlayer) at 3.
    rewrite !concat_app, !concat_cons.
    rewrite <- !app_assoc. f_equiv. f_equiv.
    apply Permutation_app_comm.
  - rewrite concat_app. simpl. done.
Qed.

Lemma assign_nonempty reduced width node layers levels layers' levels' level :
  Forall (λ layer, layer ≠ []) layers →
  assign reduced width node layers levels = Ok (layers', levels', level) →
  Forall (λ layer, layer ≠ []) layers'.
Proof.
  intros Hne (dl & _ & _ & Hlevel & _ & Hcase)%assign_Ok.
  destruct Hcase as [(Hlt & layer & Hlayer & _ & ->)|[_ ->]].
  - apply Forall_insert; [done|]. by destruct layer.
  - apply Forall_app. split; [done|]. by apply Forall_singleton.
Qed.

End placement_more.

(** ** More on the layering loops *)

Section loops_more.
Context {Node : Type} `{Countable Node}.
Implicit Types (g reduced : DirectedGraph.t Node) (node d n : Node).
Implicit Types (layers : list (list Node)) (levels : gmap Node Z).
Implicit Types (width level dl z maxLevel : Z).



(** Nodes that all have a level are all skipped. *)
Lemma Sort_loop_skips reduced width nodes layers levels :
  (∀ n, n ∈ nodes → is_Some (levels !! n)) →
  CoffmanGrahamSorter.Sort_loop reduced width nodes layers levels
  = (Ok (), (layers, levels)).
Proof.
  induction nodes as [|node nodes IH]; intros Hall; simpl; [done|].
  destruct (Hall node) as [z ->]; [by left|].
  apply IH. intros n Hn. apply Hall. by right.
Qed.

Lemma EventSort_loop_skips reduced width nodes layers levels maxLevel :
  (∀ n, n ∈ nodes → is_Some (levels !! n)) →
  OptimizedCoffmanGrahamSorter.EventSort_loop reduced width nodes layers levels
    maxLevel
  = (Ok (), (layers, levels, maxLevel)).
Proof.
  induction nodes as [|node nodes IH]; intros Hall; simpl; [done|].
  destruct (Hall node) as [z ->]; [by left|].
  apply IH. intros n Hn. apply Hall. by right.
Qed.

(** From empty layers on, the running maximum is the index of the last
    layer. *)
Lemma EventSort_loop_max reduced width nodes layers levels maxLevel :
  maxLevel = len layers - 1 →
  (OptimizedCoffmanGrahamSorter.EventSort_loop reduced width nodes layers
     levels maxLevel).2.2
  = len (OptimizedCoffmanGrahamSorter.EventSort_loop reduced width nodes
           layers levels maxLevel).2.1.1 - 1.
Proof.
  revert layers levels maxLevel.
  induction nodes as [|node nodes IH]; intros layers levels maxLevel Hmax; simpl.
  { done. }
  destruct (levels !! node); [by apply IH|].
  destruct (assign _ _ _ _ _) as [[[layers' levels'] level]| | |] eqn:Hassign;
    [|done..].
  apply IH.
  apply assign_Ok in Hassign as (dl & _ & _ & Hlevel & _ & Hcase).
  destruct Hcase as [(Hlt & layer & Hlayer & _ & ->)|[-> ->]].
  - unfold len in *. rewrite length_insert.
    destruct (maxLevel =? -1) eqn:E1; [lia|]. simpl.
    destruct (maxLevel <? level) eqn:E2; lia.
  - unfold len in *. rewrite length_app. simpl.
    destruct (maxLevel =? -1) eqn:E1; simpl; [lia|].
    destruct (maxLevel <? Z.of_nat (length layers)) eqn:E2; lia.
Qed.

(** The first node without a level stops the loop when one of its
    dependants has no level; nothing has been written then. *)
Lemma Sort_loop_missing reduced width node nodes layers levels d :
  levels !! node = None →
  d ∈ DirectedGraph.IncomingEdges reduced node → levels !! d = None →
  CoffmanGrahamSorter.Sort_loop reduced width (node :: nodes) layers levels
  = (Err ErrDependencyOrder, (layers, levels)).
Proof.
  intros Hnode Hd Hnone. simpl. rewrite Hnode.
  unfold assign. by rewrite (dependant_loop_missing levels _ _ d Hd Hnone).
Qed.

Lemma Sort_loop_layering_only reduced width nodes layers levels :
  1 ≤ width → layering width layers levels →
  layering width
    (CoffmanGrahamSorter.Sort_loop reduced width nodes layers levels).2.1
    (CoffmanGrahamSorter.Sort_loop reduced width nodes layers levels).2.2.
Proof.
  intros Hwidth. revert layers levels.
  induction nodes as [|node nodes IH]; intros layers levels Hlay; simpl.
  { done. }
  destruct (levels !! node) as [z|] eqn:Hnode; [by apply IH|].
  destruct (assign _ _ _ _ _) as [[[layers' levels'] level]| | |] eqn:Hassign;
    simpl; try done.
  apply IH. by eapply assign_layering.
Qed.

(** A new sorter runs the loop of [OrigSort]. *)
Lemma CoffmanGrahamSort_OrigSort_loop g width nodes :
  DFSSort (RemoveTransitives g).1 = Ok nodes →
  CoffmanGrahamSort g width
  = CoffmanGrahamSorter.OrigSort_loop (RemoveTransitives g).1 width nodes [] ∅.
Proof.
  intros Hsort. unfold CoffmanGrahamSort.
  destruct (Sort_Sort_loop g
    (CoffmanGrahamSorter.NewCoffmanGrahamSorter width) nodes Hsort) as (-> & _).
  simpl. rewrite OrigSort_loop_Sort_loop; [done| |done].
  by destruct (DFSSort_Ok _ _ Hsort) as (? & _).
Qed.

Lemma OrigSort_loop_concat reduced width nodes layers levels layers' :
  CoffmanGrahamSorter.OrigSort_loop reduced width nodes layers levels
    = Ok layers' →
  concat layers' ≡ₚ concat layers ++ nodes.
Proof.
  revert layers levels.
  induction nodes as [|node nodes IH]; intros layers levels; simpl.
  { intros [= <-]. by rewrite app_nil_r. }
  destruct (assign _ _ _ _ _) as [[[layers1 levels1] level]| | |] eqn:Hassign;
    try done.
  intros Hrest. rewrite (IH _ _ Hrest), (assign_concat _ _ _ _ _ _ _ _ Hassign).
  by rewrite <- app_assoc.
Qed.

Lemma OrigSort_loop_nonempty reduced width nodes layers levels layers' :
  Forall (λ layer, layer ≠ []) layers →
  CoffmanGrahamSorter.OrigSort_loop reduced width nodes layers levels
    = Ok layers' →
  Forall (λ layer, layer ≠ []) layers'.
Proof.
  revert layers levels.
  induction nodes as [|node nodes IH]; intros layers levels Hne; simpl.
  { by intros [= <-]. }
  destruct (assign _ _ _ _ _) as [[[layers1 levels1] level]| | |] eqn:Hassign;
    try done.
  apply IH. by eapply assign_nonempty.
Qed.

Lemma OrigSort_loop_no_width reduced width nodes layers levels layers' :
  width ≤ 0 →
  CoffmanGrahamSorter.OrigSort_loop reduced width nodes layers levels
    = Ok layers' →
  layers' = layers ++ ((λ n, [n]) <$> nodes).
Proof.
  intros Hwidth. revert layers levels.
  induction nodes as [|node nodes IH]; intros layers levels; simpl.
  { intros [= <-]. by rewrite app_nil_r. }
  destruct (assign _ _ _ _ _) as [[[layers1 levels1] level]| | |] eqn:Hassign;
    try done.
  intros Hrest. rewrite (IH _ _ Hrest).
  rewrite (assign_no_width _ _ _ _ _ _ _ _ Hwidth Hassign).
  by rewrite <- app_assoc.
Qed.

Lemma lookup_concat_length layers (j : nat) layer :
  layers !! j = Some layer → (length layer ≤ length (concat layers))%nat.
Proof.
  intros Hj. rewrite <- (take_drop_middle layers j layer Hj).
  rewrite concat_app, concat_cons, !length_app. lia.
Qed.

(** While the width leaves room in every layer, a node goes right above
    its highest dependant. *)
Lemma assign_tight reduced width node layers levels layers' levels' level :
  layering width layers levels → tight reduced levels →
  levels !! node = None →
  Z.of_nat (length (concat layers)) < width →
  assign reduced width node layers levels = Ok (layers', levels', level) →
  tight reduced levels'.
Proof.
  intros (Hlv & _ & _) Htight Hnew Hroom Hassign.
  destruct (assign_Ok _ _ _ _ _ _ _ _ Hassign)
    as (dl & Hdl & -> & Hlevel & Hgt & Hcase).
  pose proof (assign_first_fit _ _ _ _ _ _ _ _ _ Hassign Hdl) as Hfit.
  destruct (dependant_loop_Ok _ _ _ _ Hdl) as (Hge & _ & Hmax).
  assert (dl < len layers) as Hdl_lt.
  { destruct Hmax as [->|(d & _ & Hd)]; [unfold len; lia|].
    apply Hlv in Hd as [Hd0 Hd%in_layer_bound]. unfold len. lia. }
  assert (level = dl + 1) as ->.
  { specialize (Hgt Hdl_lt).
    destruct (decide (level = dl + 1)) as [|Hne]; [done|exfalso].
    assert (level ≤ len layers) as Hle.
    { destruct Hcase as [(? & _)|[-> _]]; lia. }
    destruct (lookup_lt_is_Some_2 layers (Z.to_nat (dl + 1))) as [layer Hlayer].
    { unfold len in *. lia. }
    pose proof (Hfit (Z.to_nat (dl + 1)) layer ltac:(lia) Hlayer) as Hfull.
    pose proof (lookup_concat_length _ _ _ Hlayer). unfold len in *. lia. }
  intros v z. rewrite lookup_insert.
  destruct (decide (node = v)) as [<-|Hne].
  - intros [= <-].
    destruct Hmax as [->|(d & Hd & Hlev)]; [by left|right].
    exists d. split; [done|].
    rewrite lookup_insert_ne by (intros <-; congruence).
    rewrite Hlev. f_equal. lia.
  - intros Hv. destruct (Htight _ _ Hv) as [->|(u & Hu & Hlev)]; [by left|right].
    exists u. split; [done|].
    by rewrite lookup_insert_ne by (intros <-; congruence).
Qed.

Lemma Sort_loop_tight reduced width nodes layers levels :
  1 ≤ width → layering width layers levels → tight reduced levels →
  NoDup nodes → (∀ n, n ∈ nodes → levels !! n = None) →
  Z.of_nat (length (concat layers)) + Z.of_nat (length nodes) ≤ width →
  tight reduced
    (CoffmanGrahamSorter.Sort_loop reduced width nodes layers levels).2.2.
Proof.
  intros Hwidth. revert layers levels.
  induction nodes as [|node nodes IH];
    intros layers levels Hlay Htight Hnd Hnew Hroom; simpl; [done|].
  apply NoDup_cons in Hnd as [Hnode Hnd].
  rewrite (Hnew node) by left.
  destruct (assign _ _ _ _ _) as [[[layers' levels'] level]| | |] eqn:Hassign;
    simpl; try done.
  apply IH.
  - eapply assign_layering; [done| |done|done]. apply Hnew. by left.
  - eapply assign_tight; [done|done| | |done].
    + apply Hnew. by left.
    + simpl in Hroom. lia.
  - done.
  - intros n Hn.
    apply assign_Ok in Hassign as (_ & _ & -> & _).
    rewrite lookup_insert_ne by (by intros ->). apply Hnew. by right.
  - rewrite (assign_concat _ _ _ _ _ _ _ _ Hassign), length_app.
    simpl in *. lia.
Qed.

End loops_more.

(** ** More on the sorters *)

Section sorter_more.
Context {Node : Type} `{Countable Node}.
Implicit Types (g reduced : DirectedGraph.t Node) (node d n u v x : Node).
Implicit Types (layers : list (list Node)) (levels : gmap Node Z).
Implicit Types (width level dl z : Z).

Lemma Sort_Ok_sorted g (s : CoffmanGrahamSorter.t Node) ls :
  (CoffmanGrahamSorter.Sort g s).1 = Ok ls →
  ∃ nodes, DFSSort (RemoveTransitives g).1 = Ok nodes.
Proof.
  intros Hok. destruct (DFSSort (RemoveTransitives g).1) as [nodes| | |] eqn:Hsort;
    [by exists nodes|..].
  all: rewrite Sort_failed in Hok by (intros ?; by rewrite Hsort).
  all: by rewrite Hsort in Hok.
Qed.

Lemma EventSort_Ok_sorted g (s : OptimizedCoffmanGrahamSorter.t Node) ls :
  (OptimizedCoffmanGrahamSorter.EventSort g s).1 = Ok ls →
  ∃ nodes, DFSSort (RemoveTransitives g).1 = Ok nodes.
Proof.
  intros Hok. destruct (DFSSort (RemoveTransitives g).1) as [nodes| | |] eqn:Hsort;
    [by exists nodes|..].
  all: rewrite EventSort_failed in Hok by (intros ?; by rewrite Hsort).
  all: by rewrite Hsort in Hok.
Qed.

Lemma reduced_nodes g :
  wf g →
  DirectedGraph.Nodes (RemoveTransitives g).1 = DirectedGraph.Nodes g.
Proof.
  intros Hwf. by destruct (RemoveTransitives_reduces g Hwf) as ([? _] & _).
Qed.

Lemma DirectedGraph_EdgeExists_edge g u v :
  DirectedGraph.EdgeExists g u v = true ↔ edge g u v.
Proof. unfold DirectedGraph.EdgeExists. apply bool_decide_eq_true. Qed.

End sorter_more.

(** ** Properties of the sort and of one placement *)

Section more_properties.
Context {Node : Type} `{Countable Node}.
Implicit Types (g reduced : DirectedGraph.t Node) (node d n u v x a b : Node).
Implicit Types (layers : list (list Node)) (levels : gmap Node Z).
Implicit Types (width level dl z : Z).


(** X2.  A visit that returns nil has marked its node as discovered and
    has appended to [sorted] only nodes that its node reaches. *)
Theorem visit_appends_reachable g fuel n (s s' : DFSSorter.t Node) :
  DFSSorter.visit g fuel n s = Ok s' →
  DFSSorter.marked (DFSSorter.discovered s') n = true
  ∧ ∃ l, DFSSorter.sorted s' = DFSSorter.sorted s ++ l
         ∧ ∀ x, x ∈ l → rtc (edge g) n x.
Proof.
  intros Hv. split; [by eapply visit_discovers|by eapply visit_reachable].
Qed.

(** X3.  A visit that returns nil leaves the temporary marks as it found
    them, and takes no permanent mark back. *)
Theorem visit_restores_marks g fuel n (s s' : DFSSorter.t Node) :
  DFSSorter.visit g fuel n s = Ok s' →
  (∀ x, DFSSorter.marked (DFSSorter.visiting s') x
        = DFSSorter.marked (DFSSorter.visiting s) x)
  ∧ (∀ x, DFSSorter.marked (DFSSorter.discovered s) x = true →
          DFSSorter.marked (DFSSorter.discovered s') x = true).
Proof.
  intros Hv. split.
  - intros x. symmetry. by apply (visit_visiting g fuel n s s').
  - intros x. by apply (visit_discovered_mono g fuel n s s').
Qed.

(** X4.  The closing loop of [Sort] reverses the slice, whatever its
    length, and stays inside it. *)
Theorem reverse_loop_reverses (l : list Node) :
  DFSSorter.reverse_loop (length l) 0 (Z.of_nat (length l) - 1) l
  = Ok (reverse l).
Proof. apply reverse_loop_reverse. Qed.

(** X5.  On a graph without edges [DFSSort] returns the nodes in the
    reverse of the order in which the graph lists them. *)
Theorem DFSSort_edgeless g :
  NoDup (DirectedGraph.Nodes g) →
  (∀ n, DirectedGraph.OutgoingEdges g n = []) →
  DFSSort g = Ok (reverse (DirectedGraph.Nodes g)).
Proof.
  intros Hnd Hedgeless. rewrite Sort_unfold.
  destruct (for_each_visit_edgeless g (length (DirectedGraph.Nodes g))
              (DirectedGraph.Nodes g) DFSSorter.init Hedgeless Hnd)
    as (s' & -> & E).
  { intros x _. simpl. by rewrite !marked_empty. }
  by rewrite E.
Qed.


(** X7.  When the first sorted node has no level and one of its incoming
    nodes has none either, [Sort] and [EventSort] return
    [ErrDependencyOrder] and leave the sorter as it was. *)
Theorem dependency_order_error g node rest d width layers levels
    (level level' : Z) :
  DFSSort (RemoveTransitives g).1 = Ok (node :: rest) →
  d ∈ DirectedGraph.IncomingEdges (RemoveTransitives g).1 node →
  levels !! node = None → levels !! d = None →
  CoffmanGrahamSorter.Sort g
    (CoffmanGrahamSorter.mk width layers levels level)
  = (Err ErrDependencyOrder, CoffmanGrahamSorter.mk width layers levels level)
  ∧ OptimizedCoffmanGrahamSorter.EventSort g
      (OptimizedCoffmanGrahamSorter.mk width layers levels level')
    = (Err ErrDependencyOrder,
       OptimizedCoffmanGrahamSorter.mk width layers levels level').
Proof.
  intros Hsort Hd Hnode Hnone.
  pose proof (Sort_loop_missing (RemoveTransitives g).1 width node rest
                layers levels d Hnode Hd Hnone) as Hloop.
  split.
  - unfold CoffmanGrahamSorter.Sort, DirectedGraph.Copy.
    rewrite Hsort. simpl CoffmanGrahamSorter.width.
    simpl CoffmanGrahamSorter.layers. simpl CoffmanGrahamSorter.levels.
    by rewrite Hloop.
  - unfold OptimizedCoffmanGrahamSorter.EventSort, DirectedGraph.Copy.
    rewrite Hsort. simpl OptimizedCoffmanGrahamSorter.width.
    simpl OptimizedCoffmanGrahamSorter.layers.
    simpl OptimizedCoffmanGrahamSorter.levels.
    pose proof (EventSort_loop_Sort_loop (RemoveTransitives g).1 width
                  (node :: rest) layers levels (-1)) as Heq.
    rewrite Hloop in Heq.
    destruct (OptimizedCoffmanGrahamSorter.EventSort_loop _ _ _ _ _ _)
      as [o [[layers1 levels1] maxLevel]].
    simpl in Heq. by injection Heq as -> -> ->.
Qed.



Lemma Sort_EventSort_state g width layers levels (level level' : Z) :
  (CoffmanGrahamSorter.Sort g
     (CoffmanGrahamSorter.mk width layers levels level)).1
    = (OptimizedCoffmanGrahamSorter.EventSort g
         (OptimizedCoffmanGrahamSorter.mk width layers levels level')).1
  ∧ CoffmanGrahamSorter.layers
      (CoffmanGrahamSorter.Sort g
         (CoffmanGrahamSorter.mk width layers levels level)).2
    = OptimizedCoffmanGrahamSorter.layers
        (OptimizedCoffmanGrahamSorter.EventSort g
           (OptimizedCoffmanGrahamSorter.mk width layers levels level')).2
  ∧ CoffmanGrahamSorter.levels
      (CoffmanGrahamSorter.Sort g
         (CoffmanGrahamSorter.mk width layers levels level)).2
    = OptimizedCoffmanGrahamSorter.levels
        (OptimizedCoffmanGrahamSorter.EventSort g
           (OptimizedCoffmanGrahamSorter.mk width layers levels level')).2.
Proof.
  unfold CoffmanGrahamSorter.Sort, OptimizedCoffmanGrahamSorter.EventSort,
    DirectedGraph.Copy.
  destruct (DFSSort (RemoveTransitives g).1) as [nodes| | |]; try done.
  simpl. rewrite <- (EventSort_loop_Sort_loop _ _ _ _ _ (-1)).
  by destruct (OptimizedCoffmanGrahamSorter.EventSort_loop _ _ _ _ _ _)
    as [[[]| | |] [[layers1 levels1] maxLevel]].
Qed.

(** X9.  Two sorters of the two kinds that hold the same width, layers
    and levels return the same result and hold the same layers and
    levels afterwards; only the field [level] may differ. *)
Theorem Sort_EventSort_same_state g width layers levels (level level' : Z) :
  let s := CoffmanGrahamSorter.mk width layers levels level in
  let t := OptimizedCoffmanGrahamSorter.mk width layers levels level' in
  (CoffmanGrahamSorter.Sort g s).1
    = (OptimizedCoffmanGrahamSorter.EventSort g t).1
  ∧ CoffmanGrahamSorter.layers (CoffmanGrahamSorter.Sort g s).2
    = OptimizedCoffmanGrahamSorter.layers
        (OptimizedCoffmanGrahamSorter.EventSort g t).2
  ∧ CoffmanGrahamSorter.levels (CoffmanGrahamSorter.Sort g s).2
    = OptimizedCoffmanGrahamSorter.levels
        (OptimizedCoffmanGrahamSorter.EventSort g t).2.
Proof. intros s t. apply Sort_EventSort_state. Qed.

End more_properties.

(** ** Properties of the sorters *)

Section more_properties2.
Context {Node : Type} `{Countable Node}.
Implicit Types (g reduced : DirectedGraph.t Node) (node d n u v x a b : Node).
Implicit Types (layers : list (list Node)) (levels : gmap Node Z).
Implicit Types (width level dl z : Z).

(** X10.  After [EventSort] on a new sorter the field [level] is the
    index of the last layer, and -1 when there is no layer. *)
Theorem EventSort_level_is_last_layer g width layers :
  (OptimizedCoffmanGrahamSorter.EventSort g
     (OptimizedCoffmanGrahamSorter.NewOptimizedCoffmanGrahamSorter width)).1
    = Ok layers →
  OptimizedCoffmanGrahamSorter.level
    (OptimizedCoffmanGrahamSorter.EventSort g
       (OptimizedCoffmanGrahamSorter.NewOptimizedCoffmanGrahamSorter width)).2
  = len layers - 1.
Proof.
  unfold OptimizedCoffmanGrahamSorter.EventSort, DirectedGraph.Copy.
  destruct (DFSSort (RemoveTransitives g).1) as [nodes| | |]; try done.
  simpl.
  pose proof (EventSort_loop_max (RemoveTransitives g).1 width nodes [] ∅ (-1)
                eq_refl) as Hmax.
  destruct (OptimizedCoffmanGrahamSorter.EventSort_loop _ _ _ _ _ _)
    as [[[]| | |] [[layers1 levels1] maxLevel]]; simpl in *; try done.
  by intros [= <-].
Qed.

(** What a call that returns layers leaves in the sorter. *)
Lemma Sort_first_call g (s : CoffmanGrahamSorter.t Node) layers nodes :
  (CoffmanGrahamSorter.Sort g s).1 = Ok layers →
  DFSSort (RemoveTransitives g).1 = Ok nodes →
  ∃ levels1,
    CoffmanGrahamSorter.Sort g s
    = (Ok layers,
       {| CoffmanGrahamSorter.width := CoffmanGrahamSorter.width s;
          CoffmanGrahamSorter.layers := layers;
          CoffmanGrahamSorter.levels := levels1;
          CoffmanGrahamSorter.level := CoffmanGrahamSorter.level s |})
    ∧ ∀ n, n ∈ nodes → is_Some (levels1 !! n).
Proof.
  intros Hok Hsort.
  pose proof (Sort_loop_assigned (RemoveTransitives g).1
    (CoffmanGrahamSorter.width s) nodes (CoffmanGrahamSorter.layers s)
    (CoffmanGrahamSorter.levels s)) as Hassigned.
  revert Hok Hassigned. unfold CoffmanGrahamSorter.Sort, DirectedGraph.Copy.
  rewrite Hsort.
  destruct (CoffmanGrahamSorter.Sort_loop _ _ _ _ _)
    as [[[]| | |] [layers1 levels1]]; simpl; try done.
  intros [= <-] Hassigned. exists levels1. split; [done|].
  intros n Hn. by apply Hassigned.
Qed.

Lemma EventSort_first_call g (t : OptimizedCoffmanGrahamSorter.t Node)
    layers nodes :
  (OptimizedCoffmanGrahamSorter.EventSort g t).1 = Ok layers →
  DFSSort (RemoveTransitives g).1 = Ok nodes →
  ∃ levels1 maxLevel,
    OptimizedCoffmanGrahamSorter.EventSort g t
    = (Ok layers,
       {| OptimizedCoffmanGrahamSorter.width :=
            OptimizedCoffmanGrahamSorter.width t;
          OptimizedCoffmanGrahamSorter.layers := layers;
          OptimizedCoffmanGrahamSorter.levels := levels1;
          OptimizedCoffmanGrahamSorter.level := maxLevel |})
    ∧ ∀ n, n ∈ nodes → is_Some (levels1 !! n).
Proof.
  intros Hok Hsort.
  pose proof (Sort_loop_assigned (RemoveTransitives g).1
    (OptimizedCoffmanGrahamSorter.width t) nodes
    (OptimizedCoffmanGrahamSorter.layers t)
    (OptimizedCoffmanGrahamSorter.levels t)) as Hassigned.
  rewrite <- (EventSort_loop_Sort_loop _ _ _ _ _ (-1)) in Hassigned.
  revert Hok Hassigned.
  unfold OptimizedCoffmanGrahamSorter.EventSort, DirectedGraph.Copy.
  rewrite Hsort.
  destruct (OptimizedCoffmanGrahamSorter.EventSort_loop _ _ _ _ _ _)
    as [[[]| | |] [[layers1 levels1] maxLevel]]; simpl; try done.
  intros [= <-] Hassigned. exists levels1, maxLevel. split; [done|].
  intros n Hn. by apply Hassigned.
Qed.

(** X11.  [Sort] once more on the same graph, after a call that
    returned layers: the same layers come back and the sorter stays as
    it is. *)
Theorem second_Sort_keeps_sorter g (s : CoffmanGrahamSorter.t Node) layers :
  (CoffmanGrahamSorter.Sort g s).1 = Ok layers →
  CoffmanGrahamSorter.Sort g (CoffmanGrahamSorter.Sort g s).2
  = (Ok layers, (CoffmanGrahamSorter.Sort g s).2).
Proof.
  intros Hok. destruct (Sort_Ok_sorted g s layers Hok) as [nodes Hsort].
  destruct (Sort_first_call g s layers nodes Hok Hsort) as (levels1 & -> & Hall).
  unfold CoffmanGrahamSorter.Sort, DirectedGraph.Copy. rewrite Hsort. simpl.
  by rewrite Sort_loop_skips.
Qed.

(** X12.  [EventSort] once more on the same graph, after a call that
    returned layers: the same layers come back, the layers and levels
    of the sorter stay, and its field [level] becomes -1. *)
Theorem second_EventSort_resets_level g (t : OptimizedCoffmanGrahamSorter.t Node) layers :
  (OptimizedCoffmanGrahamSorter.EventSort g t).1 = Ok layers →
  OptimizedCoffmanGrahamSorter.EventSort g
    (OptimizedCoffmanGrahamSorter.EventSort g t).2
  = (Ok layers,
     {| OptimizedCoffmanGrahamSorter.width :=
          OptimizedCoffmanGrahamSorter.width t;
        OptimizedCoffmanGrahamSorter.layers := layers;
        OptimizedCoffmanGrahamSorter.levels :=
          OptimizedCoffmanGrahamSorter.levels
            (OptimizedCoffmanGrahamSorter.EventSort g t).2;
        OptimizedCoffmanGrahamSorter.level := -1 |}).
Proof.
  intros Hok. destruct (EventSort_Ok_sorted g t layers Hok) as [nodes Hsort].
  destruct (EventSort_first_call g t layers nodes Hok Hsort)
    as (levels1 & maxLevel & -> & Hall).
  unfold OptimizedCoffmanGrahamSorter.EventSort, DirectedGraph.Copy.
  rewrite Hsort. simpl.
  by rewrite EventSort_loop_skips.
Qed.

(** X13.  On a graph with a cycle the cyclic-graph error comes before
    any write: [Sort] and [EventSort] leave the sorter as it was. *)
Theorem cyclic_graph_keeps_sorter g x (s : CoffmanGrahamSorter.t Node)
    (t : OptimizedCoffmanGrahamSorter.t Node) :
  wf g → tc (edge g) x x →
  (CoffmanGrahamSorter.Sort g s).2 = s
  ∧ (OptimizedCoffmanGrahamSorter.EventSort g t).2 = t.
Proof.
  intros Hwf Hcycle.
  assert (DFSSort g = Err ErrCyclicGraph) as Hsort.
  { apply DFSSort_cyclic; [done|]. intros Hacyc. exact (Hacyc x Hcycle). }
  assert ((RemoveTransitives g).1 = g) as Hsame.
  { apply RemoveTransitives_failed. unfold RemoveTransitives. by rewrite Hsort. }
  split.
  - rewrite Sort_failed; [done|]. intros nodes. by rewrite Hsame, Hsort.
  - rewrite EventSort_failed; [done|]. intros nodes. by rewrite Hsame, Hsort.
Qed.

(** X14.  The layers that [CoffmanGrahamSort] returns hold every node of
    the graph once, and none of them is empty. *)
Theorem CoffmanGrahamSort_partition g width layers :
  wf g → CoffmanGrahamSort g width = Ok layers →
  concat layers ≡ₚ DirectedGraph.Nodes g
  ∧ Forall (λ layer, layer ≠ []) layers.
Proof.
  intros Hwf Hok.
  destruct (Sort_Ok_sorted g _ layers Hok) as [nodes Hsort].
  rewrite (CoffmanGrahamSort_OrigSort_loop g width nodes Hsort) in Hok.
  split.
  - rewrite (OrigSort_loop_concat _ _ _ _ _ _ Hok). simpl.
    rewrite (DFSSort_Ok_nodes _ _ (reduced_wf g Hwf) Hsort).
    by rewrite reduced_nodes.
  - by eapply OrigSort_loop_nonempty; [apply Forall_nil|].
Qed.

(** X15.  With a width of zero or less no layer ever has room: on a
    directed acyclic graph [CoffmanGrahamSort] returns one layer for
    each node, in the order of the topological sort. *)
Theorem CoffmanGrahamSort_no_width g width :
  wf g → acyclic g → width ≤ 0 →
  ∃ nodes, DFSSort (RemoveTransitives g).1 = Ok nodes
           ∧ CoffmanGrahamSort g width = Ok ((λ n, [n]) <$> nodes).
Proof.
  intros Hwf Hacyc Hwidth.
  destruct (Sort_succeeds g (CoffmanGrahamSorter.NewCoffmanGrahamSorter width)
              Hwf Hacyc) as [layers Hok].
  destruct (Sort_Ok_sorted g _ layers Hok) as [nodes Hsort].
  exists nodes. split; [done|].
  fold (CoffmanGrahamSort g width) in Hok. rewrite Hok. f_equal.
  rewrite (CoffmanGrahamSort_OrigSort_loop g width nodes Hsort) in Hok.
  by rewrite (OrigSort_loop_no_width _ _ _ _ _ _ Hwidth Hok).
Qed.

(** X16.  With a width that is at least the number of nodes the width
    never decides: every node outside layer 0 has an edge of the
    reduced graph coming from the layer just before its own. *)
Theorem CoffmanGrahamSort_wide g width layers :
  wf g → len (DirectedGraph.Nodes g) ≤ width →
  CoffmanGrahamSort g width = Ok layers →
  ∀ v (j : nat), in_layer layers v j →
    j = 0%nat
    ∨ ∃ u, edge (RemoveTransitives g).1 u v ∧ in_layer layers u (j - 1).
Proof.
  intros Hwf Hwide Hok v j Hin.
  destruct (Sort_Ok_sorted g _ layers Hok) as [nodes Hsort].
  pose proof (reduced_wf g Hwf) as Hrwf.
  destruct (DFSSort_Ok _ _ Hsort) as (Hnd & _ & _).
  assert (length nodes = length (DirectedGraph.Nodes g)) as Hlen.
  { rewrite (DFSSort_Ok_nodes _ _ Hrwf Hsort). by rewrite reduced_nodes. }
  assert (1 ≤ width) as Hwidth.
  { destruct nodes as [|n0 nodes].
    - rewrite (CoffmanGrahamSort_OrigSort_loop g width [] Hsort) in Hok.
      injection Hok as <-. by destruct Hin as (? & ? & _).
    - unfold len in Hwide. simpl in Hlen. lia. }
  unfold CoffmanGrahamSort in Hok.
  destruct (Sort_Sort_loop g (CoffmanGrahamSorter.NewCoffmanGrahamSorter width)
              nodes Hsort) as (Hres & _).
  rewrite Hres in Hok. simpl in Hok. unfold returned in Hok.
  pose proof (Sort_loop_layering_only (RemoveTransitives g).1 width nodes [] ∅
                Hwidth (layering_empty width)) as (Hlv & Hly & _).
  pose proof (Sort_loop_tight (RemoveTransitives g).1 width nodes [] ∅
                Hwidth (layering_empty width)) as Htight.
  destruct (CoffmanGrahamSorter.Sort_loop _ _ _ _ _) as [[[]| | |] [layers1 levels1]];
    simpl in *; try done.
  injection Hok as ->.
  destruct (Htight) with (v := v) (z := Z.of_nat j) as [Hz|(u & Hu & Hlev)].
  - by intros w z; rewrite lookup_empty.
  - done.
  - intros n _. apply lookup_empty.
  - unfold len in Hwide. lia.
  - by apply Hly.
  - left. lia.
  - right. exists u. split; [by apply wf_incoming|].
    apply Hlv in Hlev as [Hz Hu_in].
    by replace (Z.to_nat (Z.of_nat j - 1)) with (j - 1)%nat in Hu_in by lia.
Qed.


(** X20.  After a call that returns layers every node of the graph has a
    level in the sorter, for both kinds of sorter. *)
Theorem sorted_nodes_have_levels g (s : CoffmanGrahamSorter.t Node)
    (t : OptimizedCoffmanGrahamSorter.t Node) :
  wf g →
  (∀ ls, (CoffmanGrahamSorter.Sort g s).1 = Ok ls →
     ∀ n, n ∈ DirectedGraph.Nodes g →
       is_Some (CoffmanGrahamSorter.levels (CoffmanGrahamSorter.Sort g s).2 !! n))
  ∧ (∀ ls, (OptimizedCoffmanGrahamSorter.EventSort g t).1 = Ok ls →
       ∀ n, n ∈ DirectedGraph.Nodes g →
         is_Some (OptimizedCoffmanGrahamSorter.levels
                    (OptimizedCoffmanGrahamSorter.EventSort g t).2 !! n)).
Proof.
  intros Hwf. split; intros ls Hok n Hn.
  - destruct (Sort_Ok_sorted g s ls Hok) as [nodes Hsort].
    destruct (Sort_first_call g s ls nodes Hok Hsort) as (levels1 & -> & Hall).
    simpl. apply Hall.
    destruct (DFSSort_Ok _ _ Hsort) as (_ & Hin & _). apply Hin.
    by rewrite reduced_nodes.
  - destruct (EventSort_Ok_sorted g t ls Hok) as [nodes Hsort].
    destruct (EventSort_first_call g t ls nodes Hok Hsort)
      as (levels1 & maxLevel & -> & Hall).
    simpl. apply Hall.
    destruct (DFSSort_Ok _ _ Hsort) as (_ & Hin & _). apply Hin.
    by rewrite reduced_nodes.
Qed.

End more_properties2.

(** ** Properties of the event graph, and the witnesses *)

Section event_properties.
Context {Node : Type} `{Countable Node}.
Implicit Types (g : DirectedGraph.t Node) (u v x y a b c d : Node).

Lemma DirectedGraph_add_remove g u v x y :
  DirectedGraph.EdgeExists
    (DirectedGraph.RemoveEdge (DirectedGraph.AddEdge g u v) u v) x y
  = DirectedGraph.EdgeExists g x y && negb (bool_decide (x = u ∧ y = v)).
Proof.
  apply Bool.eq_iff_eq_true.
  rewrite andb_true_iff, negb_true_iff, bool_decide_eq_false,
    !DirectedGraph_EdgeExists_edge, RemoveEdge_edge, AddEdge_edge.
  tauto.
Qed.

(** X18.  [EventGraph.RemoveEdge] takes back [EventGraph.AddEdge]: after
    both, the pair is no edge, and every other pair is an edge if and
    only if it was one before. *)
Theorem EventGraph_add_remove (eg : EventGraph.t Node) a b c d :
  EventGraph.EdgeExists
    (EventGraph.RemoveEdge (EventGraph.AddEdge eg a b) a b) c d
  = EventGraph.EdgeExists eg c d && negb (bool_decide (c = a ∧ d = b)).
Proof.
  unfold EventGraph.EdgeExists, EventGraph.RemoveEdge, EventGraph.AddEdge.
  simpl. rewrite DirectedGraph_add_remove. f_equal. f_equal.
  apply bool_decide_ext. tauto.
Qed.

(** X19.  The topological sort of the graph under an event graph runs
    against the event edges: for an event edge from [a] to [b], [b]
    stands before [a]. *)
Theorem EventGraph_sorted_backwards (eg : EventGraph.t Node) a b :
  wf (EventGraph.DirectedGraph_of eg) →
  acyclic (EventGraph.DirectedGraph_of eg) →
  EventGraph.EdgeExists eg a b = true →
  ∃ l, DFSSort (EventGraph.DirectedGraph_of eg) = Ok l ∧ before l b a.
Proof.
  intros Hwf Hacyc Hab.
  destruct (DFSSort_acyclic _ Hwf Hacyc) as [l Hsort].
  exists l. split; [done|].
  apply DirectedGraph_EdgeExists_edge in Hab.
  destruct (DFSSort_Ok _ _ Hsort) as (_ & Hall & Hord).
  apply Hord; [|done]. apply Hall.
  by apply (wf_edge _ b a).
Qed.

End event_properties.


Lemma visit_appends_reachable_witness :
  ∃ s', DFSSorter.visit scenario 5 1%nat DFSSorter.init = Ok s'
        ∧ DFSSorter.marked (DFSSorter.discovered s') 1%nat = true
        ∧ ∃ l, DFSSorter.sorted s' = DFSSorter.sorted DFSSorter.init ++ l
               ∧ ∀ x, x ∈ l → rtc (edge scenario) 1%nat x.
Proof.
  eexists. split; [reflexivity|].
  apply (visit_appends_reachable scenario 5 1%nat DFSSorter.init). reflexivity.
Defined.

Lemma visit_restores_marks_witness :
  ∃ s', DFSSorter.visit scenario 5 1%nat DFSSorter.init = Ok s'
        ∧ (∀ x, DFSSorter.marked (DFSSorter.visiting s') x
                = DFSSorter.marked (DFSSorter.visiting DFSSorter.init) x)
        ∧ (∀ x, DFSSorter.marked (DFSSorter.discovered DFSSorter.init) x = true →
                DFSSorter.marked (DFSSorter.discovered s') x = true).
Proof.
  eexists. split; [reflexivity|].
  apply (visit_restores_marks scenario 5 1%nat DFSSorter.init). reflexivity.
Defined.

Lemma DFSSort_edgeless_witness : DFSSort loose = Ok [3; 2; 1]%nat.
Proof.
  apply (DFSSort_edgeless loose).
  - by_compute.
  - intros n. reflexivity.
Defined.


Lemma dependency_order_error_witness :
  CoffmanGrahamSorter.Sort one_sided (CoffmanGrahamSorter.mk 2 [] ∅ 0)
  = (Err ErrDependencyOrder, CoffmanGrahamSorter.mk 2 [] ∅ 0)
  ∧ OptimizedCoffmanGrahamSorter.EventSort one_sided
      (OptimizedCoffmanGrahamSorter.mk 2 [] ∅ 0)
    = (Err ErrDependencyOrder, OptimizedCoffmanGrahamSorter.mk 2 [] ∅ 0).
Proof.
  apply (dependency_order_error one_sided 1%nat [2%nat] 2%nat).
  - reflexivity.
  - by_compute.
  - reflexivity.
  - reflexivity.
Defined.

Lemma EventSort_level_is_last_layer_witness :
  OptimizedCoffmanGrahamSorter.level
    (OptimizedCoffmanGrahamSorter.EventSort scenario
       (OptimizedCoffmanGrahamSorter.NewOptimizedCoffmanGrahamSorter 2)).2
  = len [[4; 1]; [2]; [3]]%nat - 1.
Proof.
  apply (EventSort_level_is_last_layer scenario 2). reflexivity.
Defined.

Lemma second_Sort_keeps_sorter_witness :
  let s := CoffmanGrahamSorter.NewCoffmanGrahamSorter 2 in
  CoffmanGrahamSorter.Sort scenario (CoffmanGrahamSorter.Sort scenario s).2
  = (Ok [[4; 1]; [2]; [3]]%nat, (CoffmanGrahamSorter.Sort scenario s).2).
Proof.
  apply (second_Sort_keeps_sorter scenario (CoffmanGrahamSorter.NewCoffmanGrahamSorter 2)).
  reflexivity.
Defined.

Lemma second_EventSort_resets_level_witness :
  let t := OptimizedCoffmanGrahamSorter.NewOptimizedCoffmanGrahamSorter 2 in
  OptimizedCoffmanGrahamSorter.EventSort scenario
    (OptimizedCoffmanGrahamSorter.EventSort scenario t).2
  = (Ok [[4; 1]; [2]; [3]]%nat,
     {| OptimizedCoffmanGrahamSorter.width := 2;
        OptimizedCoffmanGrahamSorter.layers := [[4; 1]; [2]; [3]]%nat;
        OptimizedCoffmanGrahamSorter.levels :=
          OptimizedCoffmanGrahamSorter.levels
            (OptimizedCoffmanGrahamSorter.EventSort scenario t).2;
        OptimizedCoffmanGrahamSorter.level := -1 |}).
Proof.
  apply (second_EventSort_resets_level scenario
           (OptimizedCoffmanGrahamSorter.NewOptimizedCoffmanGrahamSorter 2)).
  reflexivity.
Defined.

Lemma cyclic_graph_keeps_sorter_witness :
  (CoffmanGrahamSorter.Sort two_cycle
     (CoffmanGrahamSorter.NewCoffmanGrahamSorter 2)).2
  = CoffmanGrahamSorter.NewCoffmanGrahamSorter 2
  ∧ (OptimizedCoffmanGrahamSorter.EventSort two_cycle
       (OptimizedCoffmanGrahamSorter.NewOptimizedCoffmanGrahamSorter 2)).2
    = OptimizedCoffmanGrahamSorter.NewOptimizedCoffmanGrahamSorter 2.
Proof.
  apply (cyclic_graph_keeps_sorter two_cycle 1%nat).
  - by_compute.
  - apply (tc_l _ _ 2%nat); [|apply tc_once]; by_compute.
Defined.

Lemma CoffmanGrahamSort_partition_witness :
  concat [[4; 1]; [2]; [3]]%nat ≡ₚ DirectedGraph.Nodes scenario
  ∧ Forall (λ layer, layer ≠ []) [[4; 1]; [2]; [3]]%nat.
Proof.
  apply (CoffmanGrahamSort_partition scenario 2).
  - by_compute.
  - reflexivity.
Defined.

Lemma CoffmanGrahamSort_no_width_witness :
  ∃ nodes, DFSSort (RemoveTransitives scenario).1 = Ok nodes
           ∧ CoffmanGrahamSort scenario 0 = Ok ((λ n, [n]) <$> nodes).
Proof.
  apply (CoffmanGrahamSort_no_width scenario 0).
  - by_compute.
  - apply (ranked_acyclic id). by_compute.
  - lia.
Defined.

Lemma CoffmanGrahamSort_wide_witness :
  CoffmanGrahamSort scenario 4 = Ok [[4; 1]; [2]; [3]]%nat
  ∧ (2%nat = 0%nat
     ∨ ∃ u, edge (RemoveTransitives scenario).1 u 3%nat
            ∧ in_layer [[4; 1]; [2]; [3]]%nat u (2 - 1)).
Proof.
  split; [reflexivity|].
  apply (CoffmanGrahamSort_wide scenario 4 [[4; 1]; [2]; [3]]%nat).
  - by_compute.
  - vm_compute. discriminate.
  - reflexivity.
  - exists [3%nat]. split; [reflexivity|]. by apply list_elem_of_singleton.
Defined.


Lemma EventGraph_sorted_backwards_witness :
  ∃ l, DFSSort (EventGraph.DirectedGraph_of events) = Ok l
       ∧ before l 2%nat 1%nat.
Proof.
  apply (EventGraph_sorted_backwards events 1%nat 2%nat).
  - by_compute.
  - apply (ranked_acyclic (λ n, 10 - n)%nat). by_compute.
  - reflexivity.
Defined.

Lemma sorted_nodes_have_levels_witness :
  let s := CoffmanGrahamSorter.NewCoffmanGrahamSorter 2 in
  let t := OptimizedCoffmanGrahamSorter.NewOptimizedCoffmanGrahamSorter 2 in
  (∀ ls, (CoffmanGrahamSorter.Sort scenario s).1 = Ok ls →
     ∀ n, n ∈ DirectedGraph.Nodes scenario →
       is_Some (CoffmanGrahamSorter.levels
                  (CoffmanGrahamSorter.Sort scenario s).2 !! n))
  ∧ (∀ ls, (OptimizedCoffmanGrahamSorter.EventSort scenario t).1 = Ok ls →
       ∀ n, n ∈ DirectedGraph.Nodes scenario →
         is_Some (OptimizedCoffmanGrahamSorter.levels
                    (OptimizedCoffmanGrahamSorter.EventSort scenario t).2 !! n)).
Proof.
  apply (sorted_nodes_have_levels scenario). by_compute.
Defined.
